(** * AetherLoom: the flow store and the connection validator

    A shallow embedding of the editing core of the AetherLoom front end:
    - [frontend/src/store/useFlowStore.ts]: the Zustand store ([onConnect],
      [addNode], [updateNodeData], ...) and the connection validator
      ([checkForCycles], [isValidConnection]);
    - [frontend/src/app/page.tsx]: how the canvas wires the validator and
      the store together;
    - [frontend/src/components/nodes/io/TextInputNode.tsx]: [handleChange]
      and its sanitizer;
    - the Text Join node ([TextJoinNode]): the separator in use and its
      preview; the Math Operation node: the operation in use;
    - [frontend/src/components/nodes/io/TextOutputNode.tsx]: [formatValue];
    - the Math Operation block of the execution engine, from its
      specification.

    JavaScript objects used as records become Rocq records, objects used as
    dictionaries become [gmap string Value], arrays become lists.  The
    recursion of [checkForCycles] is not structural (it follows the edges of
    the graph), so it carries a recursion budget: [None] stands for a call
    that never returns (in the browser: a [RangeError] once the stack is
    exhausted). *)

From Stdlib Require Import ZArith QArith Ascii String Lia.
From stdpp Require Import base option list relations strings gmap.

Local Open Scope string_scope.
Local Open Scope nat_scope.
Local Open Scope list_scope.

(** ** JavaScript values *)

(** The values stored in a node's [data] object.  Numbers are kept to the
    integers: a fraction, [NaN] and the infinities are not values of the
    model, and nothing is stated about data that holds them.  A string is a
    sequence of 8-bit code units. *)
#[warnings="-register-all"]
Inductive Value : Type :=
  | VUndefined
  | VNull
  | VBool (b : bool)
  | VNum (n : Z)
  | VStr (s : string)
  | VObj (o : gmap string Value).

(** [v?.k]: [undefined] on [undefined] and [null], the property otherwise.
    Only objects have own properties here; a primitive has no property
    among the keys that the modelled code reads. *)
Definition opt_chain (v : Value) (k : string) : Value :=
  match v with
  | VObj o => default VUndefined (o !! k)
  | _ => VUndefined
  end.

(** [o.k] on a dictionary: a missing key reads as [undefined]. *)
Definition get_field (o : gmap string Value) (k : string) : Value :=
  default VUndefined (o !! k).

(** JavaScript truthiness. *)
Definition truthy (v : Value) : bool :=
  match v with
  | VUndefined | VNull => false
  | VBool b => b
  | VNum n => negb (n =? 0)%Z
  | VStr s => negb (String.eqb s "")
  | VObj _ => true
  end.

(** ** The graph: nodes, edges, connections (reactflow's types) *)

(** A handle slot of an [Edge]: [sourceHandle?: string | null]. *)
Inductive Handle : Type :=
  | HUndefined
  | HNull
  | HId (h : string).

Global Instance Handle_eq_dec : EqDecision Handle.
Proof. solve_decision. Defined.

(** A handle slot of a [Connection] is [string | null]. *)
Definition handle_of (h : option string) : Handle :=
  match h with None => HNull | Some s => HId s end.

(** [!h]: [undefined], [null] and the empty string are falsy. *)
Definition handle_falsy (h : Handle) : bool :=
  match h with
  | HUndefined | HNull => true
  | HId s => String.eqb s ""
  end.

(** [h || ''] *)
Definition handle_or_empty (h : Handle) : string :=
  match h with HId s => s | _ => "" end.

Record Node : Type := mkNode {
  node_id : string;
  node_type : string;
  node_position : Z * Z;
  node_data : gmap string Value
}.

Record Edge : Type := mkEdge {
  edge_id : string;
  edge_source : string;
  edge_target : string;
  edge_sourceHandle : Handle;
  edge_targetHandle : Handle
}.

(** [Connection]: every field is [string | null]. *)
Record Connection : Type := mkConnection {
  conn_source : option string;
  conn_target : option string;
  conn_sourceHandle : option string;
  conn_targetHandle : option string
}.

Global Instance Edge_eq_dec : EqDecision Edge.
Proof. solve_decision. Defined.

(** ** reactflow's graph helpers

    [getOutgoers] and [addEdge] are imported from the reactflow package;
    they are written out here as that package (version 11) defines them. *)

(** [edges.filter(e => e.source === node.id).map(e => e.target)], then
    [nodes.filter(n => outgoerIds.includes(n.id))]: the outgoers come in the
    order of the node list, and only nodes of the node list are returned.
    The guard [isNode(node)] of the package holds of every [Node]. *)
Definition getOutgoers (node : Node) (nodes : list Node) (edges : list Edge)
  : list Node :=
  let outgoerIds :=
    edge_target <$> filter (fun e => edge_source e = node_id node) edges in
  filter (fun n => node_id n ∈ outgoerIds) nodes.

(** [`reactflow__edge-${source}${sourceHandle || ''}-${target}${targetHandle || ''}`] *)
Definition getEdgeId (source target : string) (sourceHandle targetHandle : Handle)
  : string :=
  "reactflow__edge-" +:+ source +:+ handle_or_empty sourceHandle +:+ "-"
    +:+ target +:+ handle_or_empty targetHandle.

Definition handle_same (h1 h2 : Handle) : bool :=
  bool_decide (h1 = h2) || (handle_falsy h1 && handle_falsy h2).

Definition connectionExists (edge : Edge) (edges : list Edge) : bool :=
  existsb (fun el =>
    bool_decide (edge_source el = edge_source edge)
    && bool_decide (edge_target el = edge_target edge)
    && handle_same (edge_sourceHandle el) (edge_sourceHandle edge)
    && handle_same (edge_targetHandle el) (edge_targetHandle edge)) edges.

(** [addEdge(connection, edges)]: nothing is added when an end is missing
    ([null] or the empty string) or when the same connection exists. *)
Definition addEdge (connection : Connection) (edges : list Edge) : list Edge :=
  match conn_source connection, conn_target connection with
  | Some source, Some target =>
      if String.eqb source "" || String.eqb target "" then edges
      else
        let sh := handle_of (conn_sourceHandle connection) in
        let th := handle_of (conn_targetHandle connection) in
        let edge := mkEdge (getEdgeId source target sh th) source target sh th in
        if connectionExists edge edges then edges else edges ++ [edge]
  | _, _ => edges
  end.

(** ** The connection validator *)

(** [l.some(f)] where [f] may fail to return: the elements are tried from
    left to right, the first [true] ends the loop, and a call that does not
    return leaves the whole loop without a result. *)
Fixpoint some_opt {A : Type} (f : A → option bool) (l : list A) : option bool :=
  match l with
  | [] => Some false
  | x :: l' =>
      match f x with
      | None => None
      | Some true => Some true
      | Some false => some_opt f l'
      end
  end.

(** [checkForCycles(target, source, nodes, edges)].  [fuel] bounds the depth
    of the recursion. *)
Fixpoint checkForCycles (fuel : nat) (target source : Node)
    (nodes : list Node) (edges : list Edge) : option bool :=
  match fuel with
  | O => None
  | S fuel' =>
      let outgoers := getOutgoers target nodes edges in
      if existsb (fun outgoer => bool_decide (node_id outgoer = node_id source))
           outgoers
      then Some true
      else some_opt
             (fun outgoer => checkForCycles fuel' outgoer source nodes edges)
             outgoers
  end.

(** [isValidConnection(connection, nodes, edges)]. *)
Definition isValidConnection (fuel : nat) (connection : Connection)
    (nodes : list Node) (edges : list Edge) : option bool :=
  let source := conn_source connection in
  let target := conn_target connection in
  if bool_decide (source = target) then Some false
  else
    let hasExistingInputConnection :=
      existsb (fun edge =>
        bool_decide (Some (edge_target edge) = target)
        && bool_decide (edge_targetHandle edge
                        = handle_of (conn_targetHandle connection))) edges in
    if hasExistingInputConnection then Some false
    else
      let sourceNode := find (fun n => bool_decide (Some (node_id n) = source)) nodes in
      let targetNode := find (fun n => bool_decide (Some (node_id n) = target)) nodes in
      match sourceNode, targetNode with
      | Some sourceNode, Some targetNode =>
          match checkForCycles fuel targetNode sourceNode nodes edges with
          | None => None
          | Some true => Some false
          | Some false => Some true
          end
      | _, _ => Some false
      end.

(** ** Reachability in the graph *)

Section Reachability.
Context (nodes : list Node) (edges : list Edge).

(** [a -> b] is an existing edge. *)
Definition edge_rel (a b : string) : Prop :=
  ∃ e, e ∈ edges ∧ edge_source e = a ∧ edge_target e = b.

(** [a] is the id of a node of the node list. *)
Definition present (a : string) : Prop := a ∈ (node_id <$> nodes).

(** An existing edge that arrives at a node of the node list: the steps
    that [getOutgoers] follows. *)
Definition out_rel (a b : string) : Prop := edge_rel a b ∧ present b.

(** [b] is reachable from [a] by one or more existing edges. *)
Definition reachable : relation string := tc edge_rel.

(** The same, through nodes of the node list only. *)
Definition reachable_in : relation string := tc out_rel.

(** Invariant 1: every edge joins nodes of the node list. *)
Definition endpoints_present : Prop :=
  ∀ e, e ∈ edges → present (edge_source e) ∧ present (edge_target e).
End Reachability.

Definition acyclic {A : Type} (R : relation A) : Prop := ∀ a, ¬ tc R a a.

(** A proposed end ([string | null]) names a node of the node list. *)
Definition end_present (nodes : list Node) (x : option string) : Prop :=
  ∃ n, n ∈ nodes ∧ Some (node_id n) = x.

(** Some existing edge already arrives at the proposed (target, handle). *)
Definition input_taken (edges : list Edge) (c : Connection) : Prop :=
  ∃ e, e ∈ edges ∧ Some (edge_target e) = conn_target c
       ∧ edge_targetHandle e = handle_of (conn_targetHandle c).

(** ** The store ([useFlowStore]) *)

Record FlowState : Type := mkFlowState {
  nodes : list Node;
  edges : list Edge
}.

(** [create(...)]: the initial state. *)
Definition initialState : FlowState := mkFlowState [] [].

(** [set({ edges: addEdge(connection, get().edges) })] *)
Definition onConnect (connection : Connection) (st : FlowState) : FlowState :=
  mkFlowState (nodes st) (addEdge connection (edges st)).

Definition setNodes (ns : list Node) (st : FlowState) : FlowState :=
  mkFlowState ns (edges st).

Definition setEdges (es : list Edge) (st : FlowState) : FlowState :=
  mkFlowState (nodes st) es.

(** [set({ nodes: get().nodes.concat(node) })] *)
Definition addNode (node : Node) (st : FlowState) : FlowState :=
  mkFlowState (nodes st ++ [node]) (edges st).

(** [{ ...node, data: { ...node.data, ...data } }]: the keys of the patch
    win, which is the left-biased union with the patch on the left. *)
Definition merge_data (node : Node) (data : gmap string Value) : Node :=
  mkNode (node_id node) (node_type node) (node_position node)
         (data ∪ node_data node).

Definition updateNodeData (id : string) (data : gmap string Value)
    (st : FlowState) : FlowState :=
  mkFlowState
    ((fun node =>
        if bool_decide (node_id node = id) then merge_data node data
        else node) <$> nodes st)
    (edges st).

(** The canvas ([app/page.tsx]) hands both [isValidConnection] and
    [onConnect] to the [ReactFlow] component, which calls [onConnect] for a
    connection drawn by the user only after the validator has accepted it on
    the current nodes and edges. *)
Definition connectOnCanvas (fuel : nat) (connection : Connection)
    (st : FlowState) : FlowState :=
  match isValidConnection fuel connection (nodes st) (edges st) with
  | Some true => onConnect connection st
  | _ => st
  end.

(** ** Structural invariants of an edge list *)

Definition no_self_loop (es : list Edge) : Prop :=
  ∀ e, e ∈ es → edge_source e ≠ edge_target e.

(** At most one edge arrives at a (target node, target handle) pair. *)
Definition single_writer (es : list Edge) : Prop :=
  ∀ i j e1 e2, es !! i = Some e1 → es !! j = Some e2 →
    edge_target e1 = edge_target e2 →
    edge_targetHandle e1 = edge_targetHandle e2 → i = j.

Definition structurally_valid (ns : list Node) (es : list Edge) : Prop :=
  endpoints_present ns es ∧ no_self_loop es ∧ single_writer es
  ∧ acyclic (edge_rel es).

(** ** Sample graphs *)

Definition sample_node (id : string) : Node := mkNode id "text_input" (0, 0)%Z ∅.

Definition sample_edge (source target : string) (th : string) : Edge :=
  mkEdge (getEdgeId source target HNull (HId th)) source target HNull (HId th).

Definition sample_conn (source target : string) (th : string) : Connection :=
  mkConnection (Some source) (Some target) None (Some th).

(** A chain [a -> b -> c]. *)
Definition chain_nodes : list Node := [sample_node "a"; sample_node "b"; sample_node "c"].
Definition chain_edges : list Edge := [sample_edge "a" "b" "in"; sample_edge "b" "c" "in"].

(** Edges through a node [x] that is not in the node list. *)
Definition dangling_nodes : list Node := [sample_node "a"; sample_node "b"].
Definition dangling_edges : list Edge := [sample_edge "b" "x" "in"; sample_edge "x" "a" "in"].

(** A two-node cycle [a -> b -> a] next to an isolated node [s]. *)
Definition cyclic_nodes : list Node := [sample_node "a"; sample_node "b"; sample_node "s"].
Definition cyclic_edges : list Edge := [sample_edge "a" "b" "in"; sample_edge "b" "a" "in"].

(** A diamond [t -> a -> c], [t -> b -> c] next to an isolated node [s]. *)
Definition diamond_nodes : list Node :=
  [sample_node "t"; sample_node "a"; sample_node "b"; sample_node "c"; sample_node "s"].
Definition diamond_edges : list Edge :=
  [sample_edge "t" "a" "in"; sample_edge "t" "b" "in";
   sample_edge "a" "c" "a"; sample_edge "b" "c" "b"].

(** The position of an id in a list of ids, used to rank sample nodes. *)
Fixpoint rank_in (order : list string) (x : string) : nat :=
  match order with
  | [] => 0
  | y :: order' => if String.eqb x y then 0 else S (rank_in order' x)
  end.

Definition ranked_edges (order : list string) (es : list Edge) : bool :=
  forallb (fun e => rank_in order (edge_source e) <? rank_in order (edge_target e)) es.

(** ** Editing sessions *)

(** What the user does on the canvas: drop a node, draw a connection (which
    goes through the validator), edit a node's data. *)
Inductive Action : Type :=
  | DropNode (node : Node)
  | DrawConnection (fuel : nat) (connection : Connection)
  | EditData (id : string) (data : gmap string Value).

Definition perform (st : FlowState) (a : Action) : FlowState :=
  match a with
  | DropNode node => addNode node st
  | DrawConnection fuel connection => connectOnCanvas fuel connection st
  | EditData id data => updateNodeData id data st
  end.

Definition session (actions : list Action) : FlowState :=
  foldl perform initialState actions.

(** ** Counting the calls of the reachability check *)

(** [l.some(f)] again, where every call also reports the list of node ids
    that it visited; the lists of the calls made are put end to end. *)
Fixpoint some_visits {A : Type} (f : A → option (bool * list string)) (l : list A)
  : option (bool * list string) :=
  match l with
  | [] => Some (false, [])
  | x :: l' =>
      match f x with
      | None => None
      | Some (true, v) => Some (true, v)
      | Some (false, v) =>
          match some_visits f l' with
          | None => None
          | Some (b, v') => Some (b, v ++ v')
          end
      end
  end.

(** [checkForCycles] with a log: the id of [target] is recorded at every
    call, in the order of the calls. *)
Fixpoint checkForCycles_visits (fuel : nat) (target source : Node)
    (nodes : list Node) (edges : list Edge) : option (bool * list string) :=
  match fuel with
  | O => None
  | S fuel' =>
      let outgoers := getOutgoers target nodes edges in
      if existsb (fun outgoer => bool_decide (node_id outgoer = node_id source))
           outgoers
      then Some (true, [node_id target])
      else
        match some_visits
                (fun outgoer => checkForCycles_visits fuel' outgoer source nodes edges)
                outgoers with
        | None => None
        | Some (b, v) => Some (b, node_id target :: v)
        end
  end.

(** How often the id [v] was visited. *)
Definition visit_count (v : string) (visits : list string) : nat :=
  length (filter (fun x => x = v) visits).

(** The number of paths of at most [depth] steps that lead from the node
    [from] to a node with id [to], following outgoers. *)
Fixpoint count_paths (depth : nat) (from : Node) (to : string)
    (nodes : list Node) (edges : list Edge) : nat :=
  (if bool_decide (node_id from = to) then 1 else 0)
  + match depth with
    | O => 0
    | S depth' =>
        sum_list ((fun o => count_paths depth' o to nodes edges)
                    <$> getOutgoers from nodes edges)
    end.

(** ** The Text Join node ([TextJoinNode]) *)

(** [{ ...v }]: the own properties of an object; [undefined] and [null]
    spread to nothing.  A node's [config] is an object or is missing. *)
Definition spread (v : Value) : gmap string Value :=
  match v with VObj o => o | _ => ∅ end.

(** [typeof data.config?.separator === "string" ? data.config.separator : " "]:
    the separator when it is a string, a single space in every other case. *)
Definition currentSeparator (data : gmap string Value) : string :=
  match opt_chain (get_field data "config") "separator" with
  | VStr separator => separator
  | _ => " "
  end.

(** The component's local state: [useState<string>(currentSeparator)]. *)
Record TextJoinState : Type := mkTextJoinState {
  localSeparator : string
}.

(** First render: the local state starts from the separator of the node. *)
Definition TextJoinNode_mount (data : gmap string Value) : TextJoinState :=
  mkTextJoinState (currentSeparator data).

(** [applyValue(value)]: [setLocalSeparator(value)], then
    [updateNodeData(id, { config: { ...data.config, separator: value } })]. *)
Definition applyValue (id : string) (data : gmap string Value) (value : string)
    (ui : TextJoinState) (st : FlowState) : TextJoinState * FlowState :=
  (mkTextJoinState value,
   updateNodeData id
     {[ "config" := VObj (<["separator" := VStr value]> (spread (get_field data "config"))) ]}
     st).

(** Sample node data for the Text Join node. *)
Definition comma_config : gmap string Value :=
  {[ "config" := VObj {[ "separator" := VStr ", " ]} ]}.
Definition numeric_config : gmap string Value :=
  {[ "config" := VObj {[ "separator" := VNum 7 ]} ]}.

(** A sample store: two nodes, one edge. *)
Definition sample_store : FlowState :=
  mkFlowState
    [mkNode "n1" "text_input" (0, 0)%Z {[ "label" := VStr "in"; "value" := VStr "old" ]};
     mkNode "n2" "text_output" (10, 0)%Z {[ "label" := VStr "out" ]}]
    [sample_edge "n1" "n2" "in"].

(** ** Regular expressions, as [String.prototype.replace] runs them

    A backtracking matcher for the fragment of the JavaScript pattern
    language that the sanitizer of the Text Input node uses.  Strings are
    sequences of 8-bit code units. *)

Module RegExp.

Inductive Regex : Type :=
  | Empty
  | Char (c : ascii)            (* a literal character *)
  | NotChar (c : ascii)         (* the class [^c] *)
  | WordBoundary                (* \b *)
  | Seq (r1 r2 : Regex)
  | Star (r : Regex)            (* r*, greedy *)
  | NotAhead (r : Regex).       (* (?!r) *)

(** A position in the input: the character before it, if any, and the rest
    of the input. *)
Definition Pos : Type := option ascii * string.

(** What remains to be matched after a piece of the pattern. *)
Definition Cont : Type := option ascii → string → option Pos.

Definition accept : Cont := fun prev s => Some (prev, s).

(** [\w]: letters, digits and the underscore. *)
Definition is_word_char (c : ascii) : bool :=
  let n := nat_of_ascii c in
  ((48 <=? n) && (n <=? 57)) || ((65 <=? n) && (n <=? 90))
  || ((97 <=? n) && (n <=? 122)) || (n =? 95).

Definition is_word (c : option ascii) : bool :=
  match c with Some c => is_word_char c | None => false end.

Definition first_char (s : string) : option ascii :=
  match s with EmptyString => None | String c _ => Some c end.

(** Under the [i] flag characters are compared after upper-casing.  A
    character outside ASCII never becomes an ASCII one, so for patterns
    written in ASCII, as the two below are, only the letters [a] to [z]
    have to be mapped. *)
Definition canonicalize (ignoreCase : bool) (c : ascii) : ascii :=
  let n := nat_of_ascii c in
  if ignoreCase && (97 <=? n) && (n <=? 122) then ascii_of_nat (n - 32) else c.

Definition char_eq (ignoreCase : bool) (c d : ascii) : bool :=
  Ascii.eqb (canonicalize ignoreCase c) (canonicalize ignoreCase d).

(** The greedy loop of [r*]: one more round of [body] is tried first, then
    the continuation.  A round that consumes nothing is not taken, so [n]
    rounds suffice on an input of [n] characters. *)
Definition star_loop (body : option ascii → string → Cont → option Pos) (k : Cont)
  : nat → option ascii → string → option Pos :=
  fix loop (n : nat) (prev : option ascii) (s : string) : option Pos :=
    match n with
    | O => k prev s
    | S n' =>
        match body prev s
                (fun p s' =>
                   if String.length s' <? String.length s then loop n' p s'
                   else None) with
        | Some r => Some r
        | None => k prev s
        end
    end.

(** [rmatch ignoreCase r prev s k]: match [r] at the position [(prev, s)],
    then [k]; the first success in backtracking order is the result. *)
Fixpoint rmatch (ignoreCase : bool) (r : Regex) (prev : option ascii) (s : string)
    (k : Cont) {struct r} : option Pos :=
  match r with
  | Empty => k prev s
  | Char c =>
      match s with
      | String d s' => if char_eq ignoreCase c d then k (Some d) s' else None
      | EmptyString => None
      end
  | NotChar c =>
      match s with
      | String d s' => if char_eq ignoreCase c d then None else k (Some d) s'
      | EmptyString => None
      end
  | WordBoundary =>
      if xorb (is_word prev) (is_word (first_char s)) then k prev s else None
  | Seq r1 r2 =>
      rmatch ignoreCase r1 prev s (fun p s' => rmatch ignoreCase r2 p s' k)
  | Star r1 =>
      star_loop (rmatch ignoreCase r1) k (String.length s) prev s
  | NotAhead r1 =>
      match rmatch ignoreCase r1 prev s accept with
      | Some _ => None
      | None => k prev s
      end
  end.

(** A literal word. *)
Fixpoint literal (w : string) : Regex :=
  match w with
  | EmptyString => Empty
  | String c w' => Seq (Char c) (literal w')
  end.

(** [s.replace(r, "")] with the [g] flag: the matches found from left to
    right are dropped, everything else is kept.  After an empty match the
    search moves on by one character. *)
Fixpoint replace_loop (ignoreCase : bool) (r : Regex) (fuel : nat)
    (prev : option ascii) (s : string) : string :=
  match fuel with
  | O => s
  | S fuel' =>
      let keep_one :=
        match s with
        | EmptyString => EmptyString
        | String c s1 => String c (replace_loop ignoreCase r fuel' (Some c) s1)
        end in
      match rmatch ignoreCase r prev s accept with
      | Some (p, s') =>
          if String.length s' <? String.length s
          then replace_loop ignoreCase r fuel' p s'
          else keep_one
      | None => keep_one
      end
  end.

Definition replace_all (ignoreCase : bool) (r : Regex) (s : string) : string :=
  replace_loop ignoreCase r (S (String.length s)) None s.

(** [r.test(s)] without flags other than [i]: is there a match anywhere? *)
Fixpoint test (ignoreCase : bool) (r : Regex) (prev : option ascii) (s : string) : bool :=
  match rmatch ignoreCase r prev s accept with
  | Some _ => true
  | None =>
      match s with
      | EmptyString => false
      | String c s' => test ignoreCase r (Some c) s'
      end
  end.

End RegExp.

(** ** The Text Input node ([TextInputNode]) *)

(** The first pattern, with flags [g] and [i]; written here with blanks
    between its pieces, which are not part of it:
    [<script  \b  [^<]*  (?: (?!<\/script>)  <  [^<]* )*  <\/script>] *)
Definition script_pattern : RegExp.Regex :=
  RegExp.Seq (RegExp.literal "<script")
    (RegExp.Seq RegExp.WordBoundary
       (RegExp.Seq (RegExp.Star (RegExp.NotChar "<"%char))
          (RegExp.Seq
             (RegExp.Star
                (RegExp.Seq (RegExp.NotAhead (RegExp.literal "</script>"))
                   (RegExp.Seq (RegExp.Char "<"%char)
                      (RegExp.Star (RegExp.NotChar "<"%char)))))
             (RegExp.literal "</script>")))).

(** The second pattern, with flag [g]: [<  [^>]*  >] *)
Definition tag_pattern : RegExp.Regex :=
  RegExp.Seq (RegExp.Char "<"%char)
    (RegExp.Seq (RegExp.Star (RegExp.NotChar ">"%char)) (RegExp.Char ">"%char)).

(** [newValue.replace(script, "").replace(tag, "")] *)
Definition sanitize (newValue : string) : string :=
  RegExp.replace_all false tag_pattern (RegExp.replace_all true script_pattern newValue).

(** *** Numbers

    [maxLength] is compared with a length, which converts it with
    [ToNumber].  The numbers of the model are [NaN] and the integers. *)
Inductive Number : Type :=
  | NaN
  | Int (n : Z).

(** The value of a run of decimal digits; [None] when another character
    occurs. *)
Fixpoint digits_value (acc : Z) (s : string) : option Z :=
  match s with
  | EmptyString => Some acc
  | String c s' =>
      let n := nat_of_ascii c in
      if (48 <=? n) && (n <=? 57)
      then digits_value (10 * acc + Z.of_nat (n - 48))%Z s'
      else None
  end.

(** The blanks that [StringToNumber] strips at both ends: tab, line feed,
    vertical tab, form feed, carriage return, space and no-break space. *)
Definition is_blank (c : ascii) : bool :=
  let n := nat_of_ascii c in
  ((9 <=? n) && (n <=? 13)) || (n =? 32) || (n =? 160).

Fixpoint trim_left (s : string) : string :=
  match s with
  | String c s' => if is_blank c then trim_left s' else s
  | EmptyString => EmptyString
  end.

Definition trim (s : string) : string :=
  String.rev (trim_left (String.rev (trim_left s))).

Fixpoint has_digit (s : string) : bool :=
  match s with
  | EmptyString => false
  | String c s' =>
      let n := nat_of_ascii c in
      ((48 <=? n) && (n <=? 57)) || has_digit s'
  end.

(** A leading sign, and what follows it. *)
Definition split_sign (s : string) : bool * string :=
  match s with
  | String "+" s' => (false, s')
  | String "-" s' => (true, s')
  | _ => (false, s)
  end.

(** [StringToNumber]: the blanks at both ends do not count; nothing is
    [0]; an optional sign and decimal digits are that integer; a text
    without any digit is [NaN], [Infinity] apart.  The outer [None] is for
    the literals whose value the model does not carry (a fraction, an
    exponent, a radix prefix, an infinity) and for the texts with a digit
    that it does not parse. *)
Definition string_to_number (s : string) : option Number :=
  let t := trim s in
  let '(negative, body) := split_sign t in
  if bool_decide (t = EmptyString) then Some (Int 0)
  else
    match body, digits_value 0 body with
    | String _ _, Some n => Some (Int (if negative then - n else n))
    | _, _ =>
        if has_digit t || bool_decide (body = "Infinity") then None
        else Some NaN
    end.

(** [ToNumber] on the values of the model.  An object converts through
    [valueOf] and [toString]: when [toString] is a property of its own it
    is not a function, the conversion throws and there is no number
    ([None]); otherwise the inherited one gives a text without digits,
    hence [NaN]. *)
Definition to_number (v : Value) : option Number :=
  match v with
  | VUndefined => Some NaN
  | VNull => Some (Int 0)
  | VBool b => Some (Int (if b then 1 else 0))
  | VNum n => Some (Int n)
  | VStr s => string_to_number s
  | VObj o =>
      match o !! "toString" with
      | Some _ => None
      | None => Some NaN
      end
  end.

(** [n >= m] and [n > m] for an integer [n]: false as soon as [m] is
    [NaN]. *)
Definition js_ge (n : Z) (m : Number) : bool :=
  match m with Int m => (m <=? n)%Z | NaN => false end.

Definition js_gt (n : Z) (m : Number) : bool :=
  match m with Int m => (m <? n)%Z | NaN => false end.

(** The message shown under the field,
    [`Text reached maximum length of ${maxLength} characters`], kept as the
    limit it reports. *)
Inductive ValidationError : Type :=
  | MaxLengthReached (maxLength : Value).

(** [handleChange(e)] with [e.target.value = input]: the new validation
    message and the new store.  There is no result ([None]) when the
    comparison with [maxLength] has no number of the model to look at. *)
Definition handleChange (id : string) (data : gmap string Value) (input : string)
    (validationError : option ValidationError) (st : FlowState)
  : option (option ValidationError * FlowState) :=
  let maxLength := opt_chain (get_field data "config") "max_length" in
  let newValue := sanitize input in
  let len := Z.of_nat (String.length newValue) in
  if truthy maxLength then
    limit ← to_number maxLength;
    if js_ge len limit then
      if js_gt len limit then Some (Some (MaxLengthReached maxLength), st)
      else Some (Some (MaxLengthReached maxLength),
                 updateNodeData id {[ "value" := VStr newValue ]} st)
    else Some (None, updateNodeData id {[ "value" := VStr newValue ]} st)
  else Some (None, updateNodeData id {[ "value" := VStr newValue ]} st).

(** *** What it means for a string to hold a tag *)

(** Some [>] occurs in the string. *)
Fixpoint has_gt (s : string) : bool :=
  match s with
  | EmptyString => false
  | String c s' => Ascii.eqb c ">" || has_gt s'
  end.

(** What follows the first [>]. *)
Fixpoint after_gt (s : string) : option string :=
  match s with
  | EmptyString => None
  | String c s' => if Ascii.eqb c ">" then Some s' else after_gt s'
  end.

(** No [<] is followed, anywhere later, by a [>]. *)
Fixpoint tag_free (s : string) : bool :=
  match s with
  | EmptyString => true
  | String c s' => if Ascii.eqb c "<" then negb (has_gt s') else tag_free s'
  end.

(** ** The validator as a program over the store

    The same code once more, this time with the store threaded through it:
    the arrays that the canvas hands to the validator are the [nodes] and
    [edges] of the store, a read of an array is a read of the store, and a
    program that wrote to one of them would have to go through
    [put_nodes] or [put_edges]. *)

Module Effects.

(** A program over the store: no result when it does not return. *)
Definition Eff (A : Type) : Type := FlowState → option (A * FlowState).

Global Instance Eff_ret : MRet Eff := fun A x st => Some (x, st).

Global Instance Eff_bind : MBind Eff := fun A B f m st =>
  match m st with
  | Some (x, st') => f x st'
  | None => None
  end.

Definition diverge {A : Type} : Eff A := fun _ => None.

Definition get_nodes : Eff (list Node) := fun st => Some (nodes st, st).
Definition get_edges : Eff (list Edge) := fun st => Some (edges st, st).
Definition put_nodes (ns : list Node) : Eff unit :=
  fun st => Some (tt, mkFlowState ns (edges st)).
Definition put_edges (es : list Edge) : Eff unit :=
  fun st => Some (tt, mkFlowState (nodes st) es).

(** [l.some(f)] for a callback that runs over the store. *)
Fixpoint someM {A : Type} (f : A → Eff bool) (l : list A) : Eff bool :=
  match l with
  | [] => mret false
  | x :: l' => b ← f x; if b : bool then mret true else someM f l'
  end.

Fixpoint checkForCycles (fuel : nat) (target source : Node) : Eff bool :=
  match fuel with
  | O => diverge
  | S fuel' =>
      ns ← get_nodes;
      es ← get_edges;
      let outgoers := getOutgoers target ns es in
      if existsb (fun outgoer => bool_decide (node_id outgoer = node_id source))
           outgoers
      then mret true
      else someM (fun outgoer => checkForCycles fuel' outgoer source) outgoers
  end.

Definition isValidConnection (fuel : nat) (connection : Connection) : Eff bool :=
  let source := conn_source connection in
  let target := conn_target connection in
  if bool_decide (source = target) then mret false
  else
    es ← get_edges;
    let hasExistingInputConnection :=
      existsb (fun edge =>
        bool_decide (Some (edge_target edge) = target)
        && bool_decide (edge_targetHandle edge
                        = handle_of (conn_targetHandle connection))) es in
    if hasExistingInputConnection then mret false
    else
      ns ← get_nodes;
      let sourceNode := find (fun n => bool_decide (Some (node_id n) = source)) ns in
      let targetNode := find (fun n => bool_decide (Some (node_id n) = target)) ns in
      match sourceNode, targetNode with
      | Some sourceNode, Some targetNode =>
          cyc ← checkForCycles fuel targetNode sourceNode;
          if cyc : bool then mret false else mret true
      | _, _ => mret false
      end.

(** The store's [onConnect], the one program here that writes. *)
Definition onConnect (connection : Connection) : Eff unit :=
  es ← get_edges; put_edges (addEdge connection es).

(** The canvas: validate, then commit when accepted; the result tells
    whether the connection was committed.  A validator that does not return
    ends the attempt and nothing is committed. *)
Definition connectOnCanvas (fuel : nat) (connection : Connection) : Eff bool :=
  fun st =>
    match isValidConnection fuel connection st with
    | Some (true, st') =>
        match onConnect connection st' with
        | Some (_, st'') => Some (true, st'')
        | None => None
        end
    | Some (false, st') => Some (false, st')
    | None => Some (false, st)
    end.

End Effects.

(** ** The Math Operation block *)

(** The kinds of error of the engine. *)
Inductive ErrorKind : Type :=
  | GraphStructureError
  | CycleDetectedError
  | BlockExecutionError
  | UpstreamFailurePropagation.

(** [BlockResult]: a value (or absence) and an optional error. *)
Record BlockResult : Type := mkBlockResult {
  result_value : option Q;
  result_error : option ErrorKind
}.

Inductive MathOperation : Type :=
  | OpAdd
  | OpSubtract
  | OpMultiply
  | OpDivide.

(** Modelled from the spec: the config of a Math Operation block, whose
    schema ([MathBlockConfig], a [Literal] of the four names with default
    ["add"]) lives in the back end, which is not among the sources. *)
Definition select_operation (config : gmap string Value) : option MathOperation :=
  match config !! "operation" with
  | None => Some OpAdd
  | Some (VStr "add") => Some OpAdd
  | Some (VStr "subtract") => Some OpSubtract
  | Some (VStr "multiply") => Some OpMultiply
  | Some (VStr "divide") => Some OpDivide
  | Some _ => None
  end.

(** Modelled from the spec: the [run] of the Math Operation block, which is
    part of the back end and not among the sources.  Inputs ["a"] and ["b"]
    are exact rationals; the config selects one of add, subtract, multiply,
    divide; a division by zero yields a [BlockExecutionError] and no value;
    a config that selects no operation is a [BlockExecutionError] too. *)
Definition math_operation_run (config : gmap string Value) (a b : Q) : BlockResult :=
  match select_operation config with
  | Some OpAdd => mkBlockResult (Some (a + b)%Q) None
  | Some OpSubtract => mkBlockResult (Some (a - b)%Q) None
  | Some OpMultiply => mkBlockResult (Some (a * b)%Q) None
  | Some OpDivide =>
      if Qeq_bool b 0 then mkBlockResult None (Some BlockExecutionError)
      else mkBlockResult (Some (a / b)%Q) None
  | None => mkBlockResult None (Some BlockExecutionError)
  end.

(** ** Dropping a node on the canvas ([app/page.tsx]) *)

(** [onDrop(event)].  What the handler reads from its surroundings is given
    as arguments: the type carried by the drag ([getData] gives the empty
    string when the drag carries none), the canvas instance ([null] before
    [onInit]) with its [screenToFlowPosition], the pointer position and the
    id drawn by [crypto.randomUUID()]. *)
Definition onDrop (type : string) (reactFlowInstance : option (Z * Z → Z * Z))
    (client : Z * Z) (uuid : string) (st : FlowState) : FlowState :=
  if String.eqb type "" then st
  else
    match reactFlowInstance with
    | None => st
    | Some screenToFlowPosition =>
        let position := screenToFlowPosition (client.1 - 75, client.2 - 40)%Z in
        let newNode :=
          mkNode uuid type position
            {[ "label" := VStr (type +:+ " node"); "status" := VStr "idle" ]} in
        addNode newNode st
    end.

(** ** What the end-to-end tests ask of the store

    The predicates that the test helpers evaluate on the store's edges. *)

(** [expectEdgeToExist]:
    [edges.some(edge => edge.source === source && edge.target === target)] *)
Definition edgeExists (source target : string) (es : list Edge) : bool :=
  existsb (fun edge =>
    bool_decide (edge_source edge = source)
    && bool_decide (edge_target edge = target)) es.

(** [isHandleConnected]: some edge leaves or arrives at the handle. *)
Definition isHandleConnected (id handle : string) (es : list Edge) : bool :=
  existsb (fun edge =>
    (bool_decide (edge_source edge = id)
     && bool_decide (edge_sourceHandle edge = HId handle))
    || (bool_decide (edge_target edge = id)
        && bool_decide (edge_targetHandle edge = HId handle))) es.

(** ** The Math Operation node ([MathOperationNode]) *)



(** ** The live preview of the Text Join node *)

(** The preview holds glyphs beyond 8 bits, so it is kept as a list of
    UTF-16 code units; a separator typed by the user is a string of the
    model, unit by unit. *)
Definition units (s : string) : list N := N_of_ascii <$> list_ascii_of_string s.

Definition PREVIEW_MAX_LENGTH : nat := 28.

(** [formatSeparatorForPreview]: a newline shows as U+21B5, a tab as U+2192,
    the empty separator as U+2205, anything else as it is. *)
Definition formatSeparatorForPreview (separator : string) : list N :=
  if String.eqb separator (String (ascii_of_nat 10) EmptyString) then [8629%N]
  else if String.eqb separator (String (ascii_of_nat 9) EmptyString) then [8594%N]
  else if String.eqb separator "" then [8709%N]
  else units separator.

(** [buildPreview]: [`A${sep}B`], cut to [PREVIEW_MAX_LENGTH] units followed
    by an ellipsis (U+2026) when it is longer. *)
Definition buildPreview (separator : string) : list N :=
  let sep := formatSeparatorForPreview separator in
  let preview := [65%N] ++ sep ++ [66%N] in
  if PREVIEW_MAX_LENGTH <? length preview
  then take PREVIEW_MAX_LENGTH preview ++ [8230%N]
  else preview.

(** ** Strings as lists of characters *)

(** [s'] is what is left of [s] after some prefix. *)
Definition is_suffix (s' s : string) : Prop := ∃ pre, s = pre +:+ s'.

(** ** The Text Output node ([TextOutputNode]) *)




Section TextOutput.

(** The two built-in conversions that [formatValue] calls: [String(v)],
    which is also what a template literal does to [v], and
    [JSON.stringify(v, null, 2)], which has no result when it throws. *)
Variable ToString : Value → string.
Variable JSON_stringify : Value → option string.



End TextOutput.

(** ** What a script block is *)

(** [w] read off the front of [s] without regard to letter case: the
    position after it. *)
Fixpoint ci_prefix (w : string) (prev : option ascii) (s : string)
  : option RegExp.Pos :=
  match w with
  | EmptyString => Some (prev, s)
  | String c w' =>
      match s with
      | String d s' => if RegExp.char_eq true c d then ci_prefix w' (Some d) s' else None
      | EmptyString => None
      end
  end.

(** What follows the first closing tag [</script>], in any letter case. *)
Fixpoint after_close (s : string) : option string :=
  match ci_prefix "</script>" None s with
  | Some (_, rest) => Some rest
  | None =>
      match s with
      | EmptyString => None
      | String _ s' => after_close s'
      end
  end.

(** A script block at the front of [s]: [<script] in any letter case, not
    followed by a letter, a digit or an underscore, up to the first closing
    tag; the result is what follows the block. *)
Definition script_block (s : string) : option string :=
  match ci_prefix "<script" None s with
  | Some (_, rest) =>
      if RegExp.is_word (RegExp.first_char rest) then None else after_close rest
  | None => None
  end.

(** Some [<] occurs in the string. *)
Fixpoint has_lt (s : string) : bool :=
  match s with
  | EmptyString => false
  | String c s' => Ascii.eqb c "<" || has_lt s'
  end.

(** The position reached by skipping everything before the first [<]. *)
Fixpoint skip_to_lt (prev : option ascii) (s : string) : RegExp.Pos :=
  match s with
  | EmptyString => (prev, s)
  | String c s' => if Ascii.eqb c "<" then (prev, s) else skip_to_lt (Some c) s'
  end.

Definition starts_lt (s : string) : bool :=
  match s with String c _ => Ascii.eqb c "<" | EmptyString => false end.

(** ** The sanitizer as the specification words it

    "The typed string with all script blocks and all remaining tags
    removed": the text is read from left to right; where a block starts, the
    block is dropped and reading goes on after it; any other character is
    kept.  These definitions do not run the patterns; they are what the
    two [replace] calls of [sanitize] are compared with. *)
Fixpoint drop_blocks (block : string → option string) (fuel : nat) (s : string)
  : string :=
  match fuel with
  | O => s
  | S fuel' =>
      match block s with
      | Some rest => drop_blocks block fuel' rest
      | None =>
          match s with
          | EmptyString => EmptyString
          | String c s1 => String c (drop_blocks block fuel' s1)
          end
      end
  end.

(** A tag at the front of [s]: a [<] up to the first [>] after it; the
    result is what follows the tag. *)
Definition tag_block (s : string) : option string :=
  match s with
  | String c s1 => if Ascii.eqb c "<" then after_gt s1 else None
  | EmptyString => None
  end.

(** The text without its script blocks, and the text without its tags. *)
Definition strip_scripts (s : string) : string :=
  drop_blocks script_block (S (String.length s)) s.

Definition strip_tags (s : string) : string :=
  drop_blocks tag_block (S (String.length s)) s.

(** ** Handles that name an input

    reactflow reads a missing handle, [null] and the empty id as the same
    (default) handle; [isValidConnection] compares handles with [===]. *)

(** A handle written the one way that [addEdge] and the canvas write it:
    [null] for the default handle, a non-empty id otherwise. *)
Definition proper_handle (h : Handle) : Prop :=
  h ≠ HUndefined ∧ h ≠ HId "".

(** No two edges arrive at the same input, where a missing handle, [null]
    and the empty id name the same input. *)
Definition single_writer_by_handle (es : list Edge) : Prop :=
  ∀ i j e1 e2, es !! i = Some e1 → es !! j = Some e2 →
    edge_target e1 = edge_target e2 →
    handle_same (edge_targetHandle e1) (edge_targetHandle e2) = true → i = j.

Definition valid_by_handle (ns : list Node) (es : list Edge) : Prop :=
  endpoints_present ns es ∧ no_self_loop es
  ∧ single_writer_by_handle es ∧ acyclic (edge_rel es).

(** * Properties *)

(** ** Array helpers *)

Lemma existsb_elem_of {A : Type} (f : A → bool) (l : list A) :
  existsb f l = true ↔ ∃ x, x ∈ l ∧ f x = true.
Proof.
  rewrite existsb_exists. split; intros (x & Hx & Hf); exists x; split; auto;
    by apply list_elem_of_In.
Qed.

Lemma existsb_false_elem_of {A : Type} (f : A → bool) (l : list A) :
  existsb f l = false ↔ ∀ x, x ∈ l → f x = false.
Proof.
  rewrite <- not_true_iff_false, existsb_elem_of. split.
  - intros Hn x Hx. apply not_true_iff_false. intros Hf. apply Hn; eauto.
  - intros Hall (x & Hx & Hf). rewrite (Hall x Hx) in Hf. discriminate.
Qed.

Lemma find_elem_of {A : Type} (f : A → bool) (l : list A) (x : A) :
  find f l = Some x → x ∈ l ∧ f x = true.
Proof. intros H. apply find_some in H as [H1 H2]. by rewrite list_elem_of_In. Qed.

Lemma find_none_elem_of {A : Type} (f : A → bool) (l : list A) :
  find f l = None ↔ ∀ x, x ∈ l → f x = false.
Proof.
  split.
  - intros H x Hx. apply (find_none f l H). by apply list_elem_of_In.
  - induction l as [|y l IH]; simpl; [done|]. intros H.
    rewrite (H y) by left. apply IH. intros x Hx. apply H. by right.
Qed.

(** The short-circuit loop returns as soon as every call it makes does. *)
Lemma some_opt_total {A : Type} (f : A → option bool) (P : A → Prop) (l : list A) :
  (∀ x, x ∈ l → ∃ b, f x = Some b ∧ (b = true ↔ P x)) →
  ∃ b, some_opt f l = Some b ∧ (b = true ↔ ∃ x, x ∈ l ∧ P x).
Proof.
  induction l as [|y l IH]; intros Hall; simpl.
  - exists false. split; [done|]. split; [done|]. intros (x & Hx & _). inversion Hx.
  - destruct (Hall y) as (b & -> & Hb); [left|]. destruct b.
    + exists true. split; [done|]. split; [|done]. intros _. exists y. split; [left|].
      by apply Hb.
    + destruct IH as (b' & Hs & Hb'); [intros x Hx; apply Hall; by right|].
      exists b'. split; [done|]. rewrite Hb'. split.
      * intros (x & Hx & HP). exists x. split; [by right|done].
      * intros (x & Hx & HP). apply elem_of_cons in Hx as [->|Hx]; [|eauto].
        apply Hb in HP. discriminate.
Qed.

(** More fuel never changes a result. *)
Lemma some_opt_mono {A : Type} (f g : A → option bool) (l : list A) (b : bool) :
  (∀ x c, x ∈ l → f x = Some c → g x = Some c) →
  some_opt f l = Some b → some_opt g l = Some b.
Proof.
  induction l as [|y l IH]; simpl; intros Hfg; [done|].
  destruct (f y) as [c|] eqn:Hf; [|done].
  rewrite (Hfg y c) by (done || left). destruct c; [done|].
  apply IH. intros x c Hx. apply Hfg. by right.
Qed.

Lemma checkForCycles_fuel_mono nodes edges source fuel fuel' target b :
  fuel ≤ fuel' →
  checkForCycles fuel target source nodes edges = Some b →
  checkForCycles fuel' target source nodes edges = Some b.
Proof.
  revert fuel' target b. induction fuel as [|fuel IH]; intros fuel' target b Hle; [done|].
  destruct fuel' as [|fuel']; [lia|]. simpl.
  destruct (existsb _ _); [done|].
  apply some_opt_mono. intros x c _. apply IH. lia.
Qed.

(** ** Outgoers *)

Lemma elem_of_getOutgoers node nodes edges o :
  o ∈ getOutgoers node nodes edges
  ↔ o ∈ nodes ∧ edge_rel edges (node_id node) (node_id o).
Proof.
  unfold getOutgoers, edge_rel. rewrite list_elem_of_filter, list_elem_of_fmap.
  split.
  - intros [(e & -> & He) Ho]. apply list_elem_of_filter in He as [Hs He]. eauto.
  - intros [Ho (e & He & Hs & Ht)]. split; [|done].
    exists e. split; [done|]. apply list_elem_of_filter. done.
Qed.

Lemma getOutgoers_out_rel node nodes edges o :
  o ∈ getOutgoers node nodes edges → out_rel nodes edges (node_id node) (node_id o).
Proof.
  rewrite elem_of_getOutgoers. intros [Ho He]. split; [done|].
  unfold present. apply list_elem_of_fmap. eauto.
Qed.

Lemma out_rel_getOutgoers node nodes edges b :
  out_rel nodes edges (node_id node) b →
  ∃ o, o ∈ getOutgoers node nodes edges ∧ node_id o = b.
Proof.
  intros [He Hp]. apply list_elem_of_fmap in Hp as (o & -> & Ho).
  exists o. split; [|done]. apply elem_of_getOutgoers. done.
Qed.

(** ** The reachability check on an acyclic graph *)

Lemma tc_sub {A : Type} (R S : relation A) (a b : A) :
  (∀ x y, R x y → S x y) → tc R a b → tc S a b.
Proof.
  intros Hsub H. induction H as [x y H|x y z H _ IH].
  - by apply tc_once, Hsub.
  - eapply tc_l; [by apply Hsub|done].
Qed.

Lemma acyclic_sub {A : Type} (R S : relation A) :
  (∀ a b, R a b → S a b) → acyclic S → acyclic R.
Proof.
  intros Hsub Hac a Ha. apply (Hac a). by apply (tc_sub R S).
Qed.

Lemma reachable_in_reachable nodes edges a b :
  reachable_in nodes edges a b → reachable edges a b.
Proof. apply tc_sub. by intros x y [H _]. Qed.

Lemma reachable_in_closed nodes edges a b :
  endpoints_present nodes edges →
  reachable edges a b → reachable_in nodes edges a b.
Proof.
  intros Hcl. apply tc_sub. intros x y (e & He & Hs & Ht). split.
  - by exists e.
  - rewrite <- Ht. by apply Hcl.
Qed.

(** The nodes on the recursion stack are pairwise distinct on an acyclic
    graph, so the stack never grows beyond the node list. *)
Lemma checkForCycles_on_stack nodes edges source :
  acyclic (out_rel nodes edges) →
  ∀ fuel target stack,
    target ∈ nodes →
    NoDup stack →
    (∀ x, x ∈ stack → present nodes x ∧ reachable_in nodes edges x (node_id target)) →
    length nodes < fuel + length stack →
    ∃ b, checkForCycles fuel target source nodes edges = Some b
         ∧ (b = true ↔ reachable_in nodes edges (node_id target) (node_id source)).
Proof.
  intros Hac fuel. induction fuel as [|fuel IH]; intros target stack Ht Hnd Hst Hlen.
  - exfalso. simpl in Hlen.
    assert (length stack ≤ length (node_id <$> nodes)) as Hle.
    { apply submseteq_length, NoDup_submseteq; [done|]. intros x Hx. by apply Hst. }
    rewrite length_fmap in Hle. lia.
  - assert (node_id target ∉ stack) as Hfresh.
    { intros Hin. apply (Hac (node_id target)). by apply Hst. }
    simpl. destruct (existsb _ _) eqn:Hex.
    + exists true. split; [done|]. split; [|done]. intros _.
      apply existsb_elem_of in Hex as (o & Ho & Hid).
      apply bool_decide_eq_true in Hid. rewrite <- Hid.
      apply tc_once. by apply getOutgoers_out_rel.
    + pose proof (proj1 (existsb_false_elem_of _ _) Hex) as Hno.
      destruct (some_opt_total
                  (fun outgoer => checkForCycles fuel outgoer source nodes edges)
                  (fun o => reachable_in nodes edges (node_id o) (node_id source))
                  (getOutgoers target nodes edges)) as (b & Hb & Hiff).
      { intros o Ho. apply (IH o (node_id target :: stack)).
        - by apply elem_of_getOutgoers in Ho as [? _].
        - by constructor.
        - intros x Hx. apply elem_of_cons in Hx as [->|Hx].
          + split; [apply list_elem_of_fmap; eauto|].
            apply tc_once. by apply getOutgoers_out_rel.
          + split; [by apply Hst|]. eapply tc_r; [by apply Hst|].
            by apply getOutgoers_out_rel.
        - simpl. lia. }
      exists b. split; [done|]. rewrite Hiff. split.
      * intros (o & Ho & Hr). eapply tc_l; [|exact Hr]. by apply getOutgoers_out_rel.
      * intros Hr. apply tc_nsteps in Hr as (n & Hn & Hr).
        destruct n as [|n]; [lia|]. inversion Hr as [|? ? y ? Hstep Hrest]; subst.
        destruct (out_rel_getOutgoers _ _ _ _ Hstep) as (o & Ho & Hoid). subst y.
        exists o. split; [done|]. destruct n as [|n].
        -- inversion Hrest; subst. specialize (Hno o Ho).
           apply bool_decide_eq_false in Hno. congruence.
        -- apply tc_nsteps. exists (S n). split; [lia|done].
Qed.

Lemma checkForCycles_acyclic nodes edges target source fuel :
  acyclic (out_rel nodes edges) →
  target ∈ nodes →
  length nodes < fuel →
  ∃ b, checkForCycles fuel target source nodes edges = Some b
       ∧ (b = true ↔ reachable_in nodes edges (node_id target) (node_id source)).
Proof.
  intros Hac Ht Hlen. apply (checkForCycles_on_stack nodes edges source Hac fuel target []).
  - done.
  - constructor.
  - intros x Hx. inversion Hx.
  - simpl. lia.
Qed.

(** ** Acyclic relations *)

Lemma acyclic_ranked order es :
  ranked_edges order es = true → acyclic (edge_rel es).
Proof.
  intros Hr.
  assert (∀ a b, tc (edge_rel es) a b → rank_in order a < rank_in order b) as Hlt.
  { assert (∀ a b, edge_rel es a b → rank_in order a < rank_in order b) as Hstep.
    { intros a b (e & He & <- & <-).
      unfold ranked_edges in Hr. rewrite forallb_forall in Hr.
      apply Nat.ltb_lt, Hr. by apply list_elem_of_In. }
    intros a b H. induction H as [x y H|x y z H _ IH].
    - by apply Hstep.
    - apply Hstep in H. lia. }
  intros a Ha. apply Hlt in Ha. lia.
Qed.

(** Paths of a relation extended by one pair [s -> t]. *)
Lemma tc_add_pair {A : Type} (R : relation A) (s t a b : A) :
  tc (fun x y => R x y ∨ (x = s ∧ y = t)) a b →
  tc R a b ∨ (rtc R a s ∧ rtc R t b).
Proof.
  intros H. induction H as [x y [H|[-> ->]]|x y z [H|[-> ->]] _ IH].
  - left. by apply tc_once.
  - right. split; apply rtc_refl.
  - destruct IH as [IH|[IH1 IH2]].
    + left. by eapply tc_l.
    + right. split; [by eapply rtc_l|done].
  - destruct IH as [IH|[IH1 IH2]].
    + right. split; [apply rtc_refl|by apply tc_rtc].
    + right. split; [apply rtc_refl|done].
Qed.

(** Adding [s -> t] keeps a relation acyclic when [s] is not reachable from
    [t] and the pair is not a loop. *)
Lemma acyclic_add_pair {A : Type} (R : relation A) (s t : A) :
  acyclic R → s ≠ t → ¬ tc R t s →
  acyclic (fun x y => R x y ∨ (x = s ∧ y = t)).
Proof.
  intros Hac Hne Hns a Ha. apply tc_add_pair in Ha as [Ha|[Has Hta]].
  - by apply (Hac a).
  - assert (rtc R t s) as Hts by (by etrans).
    apply rtc_tc in Hts as [->|Hts]; [by apply Hne|by apply Hns].
Qed.

Lemma edge_rel_snoc es e a b :
  edge_rel (es ++ [e]) a b
  ↔ edge_rel es a b ∨ (a = edge_source e ∧ b = edge_target e).
Proof.
  unfold edge_rel. split.
  - intros (e' & He' & <- & <-). apply elem_of_app in He' as [He'|He'].
    + left. eauto.
    + apply list_elem_of_singleton in He' as ->. by right.
  - intros [(e' & He' & Hs & Ht)|[-> ->]].
    + exists e'. split; [|done]. apply elem_of_app. by left.
    + exists e. split; [|done]. apply elem_of_app. right. by apply list_elem_of_singleton.
Qed.

(** ** Sample graphs *)

Lemma chain_edges_acyclic : acyclic (edge_rel chain_edges).
Proof. by apply (acyclic_ranked ["a"; "b"; "c"]). Qed.

Lemma dangling_edges_acyclic : acyclic (edge_rel dangling_edges).
Proof. by apply (acyclic_ranked ["b"; "x"; "a"]). Qed.

Lemma diamond_edges_acyclic : acyclic (edge_rel diamond_edges).
Proof. by apply (acyclic_ranked ["t"; "a"; "b"; "c"]). Qed.

Lemma no_edges_unreachable a b : ¬ reachable [] a b.
Proof.
  intros H. apply tc_nsteps in H as (n & Hn & H).
  destruct n; [lia|]. inversion H as [|? ? y ? (e & He & _) _]; subst. inversion He.
Qed.

Lemma dangling_edges_reachable : reachable dangling_edges "b" "a".
Proof.
  eapply tc_l; [|apply tc_once].
  - exists (sample_edge "b" "x" "in"). split; [|done].
    apply list_elem_of_In. simpl. tauto.
  - exists (sample_edge "x" "a" "in"). split; [|done].
    apply list_elem_of_In. simpl. tauto.
Qed.

(** Nothing arrives at a node that is the target of no edge. *)
Lemma reachable_last_edge es a b :
  reachable es a b → ∃ e, e ∈ es ∧ edge_target e = b.
Proof.
  intros H. apply tc_nsteps in H as (n & Hn & H). destruct n; [lia|].
  apply nsteps_inv_r in H as (y & _ & (e & He & _ & Ht)). eauto.
Qed.

Lemma cyclic_edges_miss_s a : ¬ reachable cyclic_edges a "s".
Proof.
  intros H. apply reachable_last_edge in H as (e & He & Ht).
  apply list_elem_of_In in He. simpl in He.
  destruct He as [<-|[<-|[]]]; discriminate Ht.
Qed.

(** On the two-node cycle the descent from [a] in search of [s] never
    returns, whatever the recursion budget. *)
Lemma checkForCycles_cyclic_diverges fuel :
  checkForCycles fuel (sample_node "a") (sample_node "s") cyclic_nodes cyclic_edges = None
  ∧ checkForCycles fuel (sample_node "b") (sample_node "s") cyclic_nodes cyclic_edges = None.
Proof.
  induction fuel as [|fuel [IHa IHb]]; [done|].
  assert (getOutgoers (sample_node "a") cyclic_nodes cyclic_edges = [sample_node "b"])
    as Ha by reflexivity.
  assert (getOutgoers (sample_node "b") cyclic_nodes cyclic_edges = [sample_node "a"])
    as Hb by reflexivity.
  split; cbn [checkForCycles]; [rewrite Ha|rewrite Hb]; cbn [existsb some_opt].
  - replace (bool_decide _) with false by reflexivity. simpl. by rewrite IHb.
  - replace (bool_decide _) with false by reflexivity. simpl. by rewrite IHa.
Qed.

(** ** The reachability check, [checkForCycles] *)

(** C4 (as amended): on an acyclic edge set, for distinct nodes [target] and
    [source] of the node list, [checkForCycles] returns, and it returns
    [true] exactly when [source] is reachable from [target] by one or more
    existing edges that each arrive at a node of the node list; this is
    exactly when the edge [source -> target] would close a cycle among those
    edges. *)
Theorem checkForCycles_reachable_in nodes edges target source fuel :
  acyclic (edge_rel edges) →
  target ∈ nodes → source ∈ nodes → node_id target ≠ node_id source →
  length nodes < fuel →
  ∃ b, checkForCycles fuel target source nodes edges = Some b
       ∧ (b = true ↔ reachable_in nodes edges (node_id target) (node_id source))
       ∧ ∀ e, edge_source e = node_id source → edge_target e = node_id target →
           (b = true ↔ ¬ acyclic (out_rel nodes (edges ++ [e]))).
Proof.
  intros Hac Ht Hs Hne Hlen.
  assert (acyclic (out_rel nodes edges)) as Hac'.
  { eapply acyclic_sub; [|exact Hac]. by intros a b [H _]. }
  destruct (checkForCycles_acyclic nodes edges target source fuel Hac' Ht Hlen)
    as (b & Hb & Hiff).
  exists b. split; [done|]. split; [done|]. intros e Hes Het.
  assert (∀ x y, out_rel nodes (edges ++ [e]) x y
                 → out_rel nodes edges x y ∨ (x = node_id source ∧ y = node_id target))
    as Hsplit.
  { intros x y [Hxy Hp]. apply edge_rel_snoc in Hxy as [Hxy|[-> ->]].
    - left. by split.
    - right. by rewrite Hes, Het. }
  split.
  - intros Htrue Hac2. apply Hiff in Htrue. apply (Hac2 (node_id target)).
    eapply tc_r.
    + eapply tc_sub; [|exact Htrue]. intros x y [Hxy Hp]. split; [|done].
      apply edge_rel_snoc. by left.
    + split; [|apply list_elem_of_fmap; eauto].
      apply edge_rel_snoc. right. by rewrite Hes, Het.
  - intros Hcyc. destruct b; [done|]. exfalso. apply Hcyc.
    eapply acyclic_sub; [exact Hsplit|].
    apply acyclic_add_pair; [done|congruence|].
    intros Hr. apply Hiff in Hr. discriminate.
Qed.

Lemma checkForCycles_reachable_in_witness :
  ∃ b, checkForCycles 4 (sample_node "a") (sample_node "c") chain_nodes chain_edges = Some b
       ∧ (b = true ↔ reachable_in chain_nodes chain_edges "a" "c")
       ∧ ∀ e, edge_source e = "c" → edge_target e = "a" →
           (b = true ↔ ¬ acyclic (out_rel chain_nodes (chain_edges ++ [e]))).
Proof.
  apply (checkForCycles_reachable_in chain_nodes chain_edges
           (sample_node "a") (sample_node "c") 4).
  - exact chain_edges_acyclic.
  - unfold chain_nodes. apply list_elem_of_In. simpl. tauto.
  - unfold chain_nodes. apply list_elem_of_In. simpl. tauto.
  - simpl. discriminate.
  - simpl. lia.
Defined.

(** When every edge joins nodes of the node list (invariant 1), the check
    decides plain reachability along the existing edges. *)
Lemma checkForCycles_reachable nodes edges target source fuel :
  acyclic (edge_rel edges) → endpoints_present nodes edges →
  target ∈ nodes → length nodes < fuel →
  ∃ b, checkForCycles fuel target source nodes edges = Some b
       ∧ (b = true ↔ reachable edges (node_id target) (node_id source)).
Proof.
  intros Hac Hcl Ht Hlen.
  destruct (checkForCycles_acyclic nodes edges target source fuel) as (b & Hb & Hiff);
    [|done|done|].
  { eapply acyclic_sub; [|exact Hac]. by intros x y [H _]. }
  exists b. split; [done|]. rewrite Hiff. split.
  - apply reachable_in_reachable.
  - by apply reachable_in_closed.
Qed.

(** C4 (as stated) fails on an edge list with an edge through a node that is
    not in the node list: [a] is reachable from [b] along [b -> x -> a], the
    edge set is acyclic, both nodes are in the node list, and the check
    answers [false]. *)
Lemma checkForCycles_dangling_counterexample :
  acyclic (edge_rel dangling_edges)
  ∧ sample_node "b" ∈ dangling_nodes ∧ sample_node "a" ∈ dangling_nodes
  ∧ node_id (sample_node "b") ≠ node_id (sample_node "a")
  ∧ reachable dangling_edges "b" "a"
  ∧ ∀ fuel, checkForCycles (S fuel) (sample_node "b") (sample_node "a")
              dangling_nodes dangling_edges = Some false.
Proof.
  split; [exact dangling_edges_acyclic|].
  split; [apply list_elem_of_In; simpl; tauto|].
  split; [apply list_elem_of_In; simpl; tauto|].
  split; [simpl; discriminate|].
  split; [exact dangling_edges_reachable|].
  intros fuel. reflexivity.
Qed.

(** ** The validator, [isValidConnection] *)

Lemma find_end_present nodes x n :
  find (fun n => bool_decide (Some (node_id n) = x)) nodes = Some n →
  n ∈ nodes ∧ Some (node_id n) = x.
Proof.
  intros H. apply find_elem_of in H as [Hn Hx]. by apply bool_decide_eq_true in Hx.
Qed.

Lemma find_end_absent nodes x :
  find (fun n => bool_decide (Some (node_id n) = x)) nodes = None ↔ ¬ end_present nodes x.
Proof.
  rewrite find_none_elem_of. unfold end_present. split.
  - intros H (n & Hn & Hx). specialize (H n Hn). apply bool_decide_eq_false in H. done.
  - intros H n Hn. apply bool_decide_eq_false. intros Hx. apply H. eauto.
Qed.

Lemma hasExistingInputConnection_spec edges c :
  existsb (fun edge =>
    bool_decide (Some (edge_target edge) = conn_target c)
    && bool_decide (edge_targetHandle edge = handle_of (conn_targetHandle c))) edges = true
  ↔ input_taken edges c.
Proof.
  rewrite existsb_elem_of. unfold input_taken.
  split; intros (e & He & H); exists e; (split; [done|]).
  - apply andb_true_iff in H as [H1 H2].
    by apply bool_decide_eq_true in H1, H2.
  - destruct H as [H1 H2]. apply andb_true_iff. by rewrite !bool_decide_eq_true.
Qed.

(** C5: a connection one of whose ends is not the id of a node of the node
    list is rejected. *)
Theorem isValidConnection_absent_node fuel c nodes edges :
  ¬ end_present nodes (conn_source c) ∨ ¬ end_present nodes (conn_target c) →
  isValidConnection fuel c nodes edges = Some false.
Proof.
  intros Habs. unfold isValidConnection.
  destruct (bool_decide _); [done|]. destruct (existsb _ _); [done|].
  destruct (find _ nodes) as [sourceNode|] eqn:Hs; [|done].
  destruct (find (fun n => bool_decide (Some (node_id n) = conn_target c)) nodes)
    as [targetNode|] eqn:Ht; [|done].
  apply find_end_present in Hs, Ht. unfold end_present in Habs.
  destruct Habs as [Habs|Habs]; exfalso; apply Habs; eauto.
Qed.

Lemma isValidConnection_absent_node_witness :
  isValidConnection 0 (sample_conn "a" "z" "in") chain_nodes chain_edges = Some false.
Proof.
  apply isValidConnection_absent_node. right.
  intros (n & Hn & Hid). apply list_elem_of_In in Hn. simpl in Hn.
  destruct Hn as [<-|[<-|[<-|[]]]]; discriminate Hid.
Defined.

(** C1 (as amended): on an acyclic edge set the validator returns, and it
    rejects exactly when the two ends are equal, or an existing edge already
    arrives at the same (target, target handle), or one of the ends is not
    the id of a node of the node list, or the source is reachable from the
    target by existing edges that each arrive at a node of the node list;
    in every other case the connection is accepted. *)
Theorem isValidConnection_rejects_iff nodes edges c fuel :
  acyclic (edge_rel edges) → length nodes < fuel →
  ∃ b, isValidConnection fuel c nodes edges = Some b
       ∧ (b = false ↔
            conn_source c = conn_target c
            ∨ input_taken edges c
            ∨ ¬ end_present nodes (conn_source c)
            ∨ ¬ end_present nodes (conn_target c)
            ∨ ∃ s t, conn_source c = Some s ∧ conn_target c = Some t
                     ∧ reachable_in nodes edges t s).
Proof.
  intros Hac Hlen. unfold isValidConnection.
  destruct (bool_decide (conn_source c = conn_target c)) eqn:Hself.
  { exists false. apply bool_decide_eq_true in Hself. tauto. }
  apply bool_decide_eq_false in Hself.
  destruct (existsb _ edges) eqn:Htaken.
  { exists false. apply hasExistingInputConnection_spec in Htaken. tauto. }
  assert (¬ input_taken edges c) as Hfree.
  { rewrite <- hasExistingInputConnection_spec, Htaken. discriminate. }
  destruct (find _ nodes) as [sourceNode|] eqn:Hs.
  2: { exists false. apply find_end_absent in Hs. tauto. }
  destruct (find (fun n => bool_decide (Some (node_id n) = conn_target c)) nodes)
    as [targetNode|] eqn:Ht.
  2: { exists false. apply find_end_absent in Ht. tauto. }
  apply find_end_present in Hs as [Hs Hsid], Ht as [Ht Htid].
  destruct (checkForCycles_acyclic nodes edges targetNode sourceNode fuel)
    as (b & -> & Hiff); [|done|done|].
  { eapply acyclic_sub; [|exact Hac]. by intros x y [H _]. }
  exists (negb b). split; [by destruct b|]. split.
  - intros Hb. do 4 right. exists (node_id sourceNode), (node_id targetNode).
    repeat split; [done..|]. apply Hiff. by destruct b.
  - intros [H|[H|[H|[H|(s & t & Hcs & Hct & Hr)]]]].
    + done.
    + done.
    + exfalso. apply H. exists sourceNode. done.
    + exfalso. apply H. exists targetNode. done.
    + rewrite Hcs in Hsid. rewrite Hct in Htid. simplify_eq.
      apply Hiff in Hr. by rewrite Hr.
Qed.

Lemma isValidConnection_rejects_iff_witness :
  ∃ b, isValidConnection 4 (sample_conn "c" "a" "in") chain_nodes chain_edges = Some b
       ∧ (b = false ↔
            conn_source (sample_conn "c" "a" "in") = conn_target (sample_conn "c" "a" "in")
            ∨ input_taken chain_edges (sample_conn "c" "a" "in")
            ∨ ¬ end_present chain_nodes (conn_source (sample_conn "c" "a" "in"))
            ∨ ¬ end_present chain_nodes (conn_target (sample_conn "c" "a" "in"))
            ∨ ∃ s t, conn_source (sample_conn "c" "a" "in") = Some s
                     ∧ conn_target (sample_conn "c" "a" "in") = Some t
                     ∧ reachable_in chain_nodes chain_edges t s).
Proof.
  apply (isValidConnection_rejects_iff chain_nodes chain_edges (sample_conn "c" "a" "in") 4).
  - exact chain_edges_acyclic.
  - simpl. lia.
Defined.

(** C1 (as stated) fails in three ways.  A connection between two ids that
    name no node is rejected although its ends differ, no edge arrives at its
    target and nothing is reachable.  A connection that would close a cycle
    through a node missing from the node list is accepted.  And on an edge
    list that already has a cycle the validator returns nothing, whatever
    the recursion budget. *)
Lemma isValidConnection_counterexample :
  (∀ fuel, isValidConnection fuel (sample_conn "a" "b" "in") [] [] = Some false)
  ∧ conn_source (sample_conn "a" "b" "in") ≠ conn_target (sample_conn "a" "b" "in")
  ∧ ¬ input_taken [] (sample_conn "a" "b" "in")
  ∧ ¬ reachable [] "b" "a"
  ∧ (∀ fuel, isValidConnection (S fuel) (sample_conn "a" "b" "in")
               dangling_nodes dangling_edges = Some true)
  ∧ reachable dangling_edges "b" "a"
  ∧ (∀ fuel, isValidConnection fuel (sample_conn "s" "a" "other")
               cyclic_nodes cyclic_edges = None)
  ∧ ¬ input_taken cyclic_edges (sample_conn "s" "a" "other")
  ∧ ¬ reachable cyclic_edges "a" "s".
Proof.
  split; [done|]. split; [done|].
  split; [intros (e & He & _); inversion He|].
  split; [apply no_edges_unreachable|].
  split; [intros fuel; reflexivity|].
  split; [exact dangling_edges_reachable|].
  split; [|split; [|apply cyclic_edges_miss_s]].
  - intros fuel. unfold isValidConnection.
    replace (bool_decide _) with false by reflexivity.
    replace (existsb _ cyclic_edges) with false by reflexivity.
    replace (find _ cyclic_nodes) with (Some (sample_node "s")) by reflexivity.
    replace (find _ cyclic_nodes) with (Some (sample_node "a")) by reflexivity.
    by rewrite (proj1 (checkForCycles_cyclic_diverges fuel)).
  - intros (e & He & _ & Hh). apply list_elem_of_In in He. simpl in He.
    destruct He as [<-|[<-|[]]]; discriminate Hh.
Qed.

(** ** Committing edges *)

Lemma isValidConnection_accepts fuel c ns es :
  isValidConnection fuel c ns es = Some true →
  ∃ sourceNode targetNode,
    sourceNode ∈ ns ∧ targetNode ∈ ns
    ∧ conn_source c = Some (node_id sourceNode)
    ∧ conn_target c = Some (node_id targetNode)
    ∧ node_id sourceNode ≠ node_id targetNode
    ∧ ¬ input_taken es c
    ∧ checkForCycles fuel targetNode sourceNode ns es = Some false.
Proof.
  unfold isValidConnection. intros H.
  destruct (bool_decide (conn_source c = conn_target c)) eqn:Hself; [done|].
  apply bool_decide_eq_false in Hself.
  destruct (existsb _ es) eqn:Htaken; [done|].
  destruct (find _ ns) as [sourceNode|] eqn:Hs; [|done].
  destruct (find (fun n => bool_decide (Some (node_id n) = conn_target c)) ns)
    as [targetNode|] eqn:Ht; [|done].
  apply find_end_present in Hs as [Hs Hsid], Ht as [Ht Htid].
  exists sourceNode, targetNode. repeat split; try done.
  - congruence.
  - rewrite <- hasExistingInputConnection_spec, Htaken. discriminate.
  - destruct (checkForCycles _ _ _ _ _) as [[]|]; done.
Qed.

Lemma addEdge_cases c es :
  addEdge c es = es
  ∨ ∃ s t, conn_source c = Some s ∧ conn_target c = Some t
           ∧ addEdge c es
             = es ++ [mkEdge (getEdgeId s t (handle_of (conn_sourceHandle c))
                                         (handle_of (conn_targetHandle c)))
                              s t (handle_of (conn_sourceHandle c))
                              (handle_of (conn_targetHandle c))].
Proof.
  unfold addEdge. destruct (conn_source c) as [s|]; [|by left].
  destruct (conn_target c) as [t|]; [|by left].
  destruct (_ || _); [by left|]. destruct (connectionExists _ _); [by left|].
  right. eauto.
Qed.

Lemma single_writer_snoc es e :
  single_writer es →
  (∀ e', e' ∈ es → ¬ (edge_target e' = edge_target e
                      ∧ edge_targetHandle e' = edge_targetHandle e)) →
  single_writer (es ++ [e]).
Proof.
  intros Hsw Hfresh i j e1 e2 Hi Hj Ht Hh.
  apply lookup_snoc_Some in Hi as [[Hi Hi']|[-> <-]];
    apply lookup_snoc_Some in Hj as [[Hj Hj']|[-> <-]].
  - by eapply Hsw.
  - exfalso. apply (Hfresh e1); [by eapply list_elem_of_lookup_2|done].
  - exfalso. apply (Hfresh e2); [by eapply list_elem_of_lookup_2|done].
  - done.
Qed.

(** A connection that the validator accepted can be committed: the edge list
    stays structurally valid. *)
Lemma connectOnCanvas_valid fuel c st :
  structurally_valid (nodes st) (edges st) →
  structurally_valid (nodes (connectOnCanvas fuel c st)) (edges (connectOnCanvas fuel c st)).
Proof.
  intros Hv. unfold connectOnCanvas.
  destruct (isValidConnection fuel c (nodes st) (edges st)) as [[]|] eqn:Hok; try done.
  apply isValidConnection_accepts in Hok
    as (sn & tn & Hsn & Htn & Hcs & Hct & Hne & Hfree & Hchk).
  simpl. destruct (addEdge_cases c (edges st)) as [->|(s & t & Hs & Ht & ->)]; [done|].
  rewrite Hcs in Hs. rewrite Hct in Ht. simplify_eq.
  destruct Hv as (Hep & Hnl & Hsw & Hac).
  set (e := mkEdge _ _ _ _ _).
  assert (¬ reachable (edges st) (node_id tn) (node_id sn)) as Hunreach.
  { intros Hr.
    destruct (checkForCycles_reachable (nodes st) (edges st) tn sn
                (fuel `max` S (length (nodes st)))) as (b & Hb & Hiff); [done..|lia|].
    apply (checkForCycles_fuel_mono _ _ _ _ (fuel `max` S (length (nodes st)))) in Hchk;
      [|lia].
    apply Hiff in Hr. congruence. }
  split; [|split; [|split]].
  - intros e' He'. apply elem_of_app in He' as [He'|He']; [by apply Hep|].
    apply list_elem_of_singleton in He' as ->. simpl.
    split; apply list_elem_of_fmap; eauto.
  - intros e' He'. apply elem_of_app in He' as [He'|He']; [by apply Hnl|].
    by apply list_elem_of_singleton in He' as ->.
  - apply single_writer_snoc; [done|]. intros e' He' [Ht Hh]. apply Hfree.
    exists e'. split; [done|]. rewrite Hct. simpl in Ht, Hh. by rewrite Ht.
  - eapply acyclic_sub; [intros a b Hab; apply edge_rel_snoc in Hab; exact Hab|].
    by apply acyclic_add_pair.
Qed.

Lemma addNode_valid node st :
  structurally_valid (nodes st) (edges st) →
  structurally_valid (nodes (addNode node st)) (edges (addNode node st)).
Proof.
  intros (Hep & Hrest). split; [|done]. simpl.
  intros e He. unfold present. rewrite fmap_app.
  destruct (Hep e He) as [H1 H2]. split; apply elem_of_app; by left.
Qed.

Lemma updateNodeData_ids id data st :
  node_id <$> nodes (updateNodeData id data st) = node_id <$> nodes st.
Proof.
  simpl. rewrite <- list_fmap_compose. apply list_fmap_ext.
  intros i node _. simpl. by destruct (bool_decide _).
Qed.

Lemma updateNodeData_valid id data st :
  structurally_valid (nodes st) (edges st) →
  structurally_valid (nodes (updateNodeData id data st)) (edges (updateNodeData id data st)).
Proof.
  intros (Hep & Hrest). split; [|done].
  intros e He. unfold present. rewrite updateNodeData_ids. by apply Hep.
Qed.

Lemma initialState_valid : structurally_valid (nodes initialState) (edges initialState).
Proof.
  split; [|split; [|split]].
  - intros e He. inversion He.
  - intros e He. inversion He.
  - intros i j e1 e2 Hi. done.
  - intros a Ha. by apply no_edges_unreachable in Ha.
Qed.

(** Every action of an editing session keeps the graph structurally valid,
    from any valid store, for instance a loaded flow that satisfies the
    invariants. *)
Lemma perform_valid st a :
  structurally_valid (nodes st) (edges st) →
  structurally_valid (nodes (perform st a)) (edges (perform st a)).
Proof.
  intros Hv. destruct a; simpl.
  - by apply addNode_valid.
  - by apply connectOnCanvas_valid.
  - by apply updateNodeData_valid.
Qed.

(** C2 (as amended): in every store state reached by an editing session on
    the canvas, where each drawn connection is committed by [onConnect] only
    after [isValidConnection] accepted it, the edge list has every edge
    between nodes of the node list, no self-loop, at most one edge per
    (target node, target handle), and no directed cycle. *)
Theorem session_structurally_valid actions :
  structurally_valid (nodes (session actions)) (edges (session actions)).
Proof.
  unfold session. induction actions as [|a actions IH] using rev_ind.
  - exact initialState_valid.
  - rewrite foldl_app. simpl. by apply perform_valid.
Qed.

(** C2 (as stated) fails: the store's [onConnect] commits whatever it is
    given.  Called directly it stores a self-loop, a second writer to one
    input handle, and a cycle. *)
Lemma onConnect_counterexample :
  ¬ no_self_loop (edges (onConnect (sample_conn "a" "a" "in") initialState))
  ∧ ¬ single_writer
        (edges (onConnect (sample_conn "b" "c" "in")
                  (onConnect (sample_conn "a" "c" "in") initialState)))
  ∧ ¬ acyclic
        (edge_rel (edges (onConnect (sample_conn "b" "a" "in")
                            (onConnect (sample_conn "a" "b" "in") initialState)))).
Proof.
  split; [|split].
  - intros H. apply (H (sample_edge "a" "a" "in")); [|done].
    apply list_elem_of_In. simpl. tauto.
  - intros H.
    specialize (H 0 1 (sample_edge "a" "c" "in") (sample_edge "b" "c" "in")).
    by discriminate H.
  - intros H. apply (H "a"). eapply tc_l; [|apply tc_once].
    + exists (sample_edge "a" "b" "in"). split; [|done].
      apply list_elem_of_In. simpl. tauto.
    + exists (sample_edge "b" "a" "in"). split; [|done].
      apply list_elem_of_In. simpl. tauto.
Qed.

(** ** How often the reachability check visits a node *)

Lemma some_visits_erase {A : Type} (f : A → option (bool * list string))
    (g : A → option bool) (l : list A) :
  (∀ x, x ∈ l → fst <$> f x = g x) → fst <$> some_visits f l = some_opt g l.
Proof.
  induction l as [|x l IH]; intros Hfg; [done|]. simpl.
  rewrite <- (Hfg x) by left.
  destruct (f x) as [[[] v]|]; simpl; [done| |done].
  rewrite <- IH by (intros y Hy; apply Hfg; by right).
  by destruct (some_visits f l) as [[b v']|].
Qed.

(** The log does not change the answer. *)
Lemma checkForCycles_visits_erase fuel target source nodes edges :
  fst <$> checkForCycles_visits fuel target source nodes edges
  = checkForCycles fuel target source nodes edges.
Proof.
  revert target. induction fuel as [|fuel IH]; intros target; [done|]. simpl.
  destruct (existsb _ _); [done|].
  rewrite <- (some_visits_erase
                (fun o => checkForCycles_visits fuel o source nodes edges)
                (fun o => checkForCycles fuel o source nodes edges))
    by (intros; apply IH).
  by destruct (some_visits _ _) as [[b v]|].
Qed.

Lemma visit_count_app v l1 l2 :
  visit_count v (l1 ++ l2) = visit_count v l1 + visit_count v l2.
Proof. unfold visit_count. by rewrite filter_app, length_app. Qed.

Lemma visit_count_cons v x l :
  visit_count v (x :: l) = (if bool_decide (x = v) then 1 else 0) + visit_count v l.
Proof.
  unfold visit_count. rewrite filter_cons.
  destruct (decide (x = v)) as [Heq|Hne].
  - by rewrite bool_decide_eq_true_2.
  - by rewrite bool_decide_eq_false_2.
Qed.

Lemma some_visits_count {A : Type} (f : A → option (bool * list string))
    (g : A → nat) (v : string) (l : list A) b visits :
  (∀ x c vs, x ∈ l → f x = Some (c, vs) →
     visit_count v vs ≤ g x ∧ (c = false → visit_count v vs = g x)) →
  some_visits f l = Some (b, visits) →
  visit_count v visits ≤ sum_list (g <$> l)
  ∧ (b = false → visit_count v visits = sum_list (g <$> l)).
Proof.
  revert b visits. induction l as [|x l IH]; intros b visits Hf; cbn [some_visits].
  - intros [= <- <-]. done.
  - change (sum_list (g <$> x :: l)) with (g x + sum_list (g <$> l)).
    destruct (f x) as [[[] vs]|] eqn:Hfx; [| |done].
    + intros [= <- <-]. destruct (Hf x true vs) as [Hle _]; [left|done|].
      split; [lia|done].
    + destruct (some_visits f l) as [[b' vs']|] eqn:Hrest; [|done].
      intros [= <- <-]. destruct (Hf x false vs) as [_ Heq]; [left|done|].
      destruct (IH b' vs') as [Hle' Heq']; [|done|].
      { intros y c ws Hy. apply Hf. by right. }
      rewrite visit_count_app, Heq by done. split; [lia|].
      intros Hb. rewrite Heq' by done. done.
Qed.

Lemma checkForCycles_visits_count fuel target source nodes edges v b visits :
  checkForCycles_visits fuel target source nodes edges = Some (b, visits) →
  visit_count v visits ≤ count_paths fuel target v nodes edges
  ∧ (b = false → visit_count v visits = count_paths fuel target v nodes edges).
Proof.
  revert target b visits. induction fuel as [|fuel IH]; intros target b visits; [done|].
  simpl. destruct (existsb _ _).
  - intros [= <- <-]. rewrite visit_count_cons. unfold visit_count. simpl.
    split; [lia|done].
  - destruct (some_visits _ _) as [[b' vs]|] eqn:Hsv; [|done].
    intros [= <- <-]. rewrite visit_count_cons.
    destruct (some_visits_count _ (fun o => count_paths fuel o v nodes edges) v _ _ _
                (fun x c ws _ => IH x c ws) Hsv) as [Hle Heq].
    split; [lia|]. intros Hb. by rewrite Heq.
Qed.

(** C3 (as amended): on an acyclic edge set a single call of
    [checkForCycles], the recursive descent over outgoers, returns; it keeps
    no visited set, and it visits a node at most once for each path that
    leads from the target to that node, and exactly once for each such path
    when the source is not found. *)
Theorem checkForCycles_visits_per_path nodes edges target source fuel :
  acyclic (edge_rel edges) → target ∈ nodes → length nodes < fuel →
  ∃ b visits,
    checkForCycles_visits fuel target source nodes edges = Some (b, visits)
    ∧ checkForCycles fuel target source nodes edges = Some b
    ∧ ∀ v, visit_count v visits ≤ count_paths fuel target v nodes edges
           ∧ (b = false → visit_count v visits = count_paths fuel target v nodes edges).
Proof.
  intros Hac Ht Hlen.
  destruct (checkForCycles_acyclic nodes edges target source fuel) as (b & Hb & _);
    [|done|done|].
  { eapply acyclic_sub; [|exact Hac]. by intros x y [H _]. }
  pose proof (checkForCycles_visits_erase fuel target source nodes edges) as Her.
  rewrite Hb in Her.
  destruct (checkForCycles_visits fuel target source nodes edges) as [[b' visits]|] eqn:Hv;
    [|done].
  simpl in Her. injection Her as ->.
  exists b, visits. split; [done|]. split; [done|].
  intros v. by eapply checkForCycles_visits_count.
Qed.

Lemma checkForCycles_visits_per_path_witness :
  ∃ b visits,
    checkForCycles_visits 6 (sample_node "t") (sample_node "s")
      diamond_nodes diamond_edges = Some (b, visits)
    ∧ checkForCycles 6 (sample_node "t") (sample_node "s")
        diamond_nodes diamond_edges = Some b
    ∧ ∀ v, visit_count v visits
             ≤ count_paths 6 (sample_node "t") v diamond_nodes diamond_edges
           ∧ (b = false → visit_count v visits
                = count_paths 6 (sample_node "t") v diamond_nodes diamond_edges).
Proof.
  apply (checkForCycles_visits_per_path diamond_nodes diamond_edges
           (sample_node "t") (sample_node "s") 6).
  - exact diamond_edges_acyclic.
  - apply list_elem_of_In. simpl. tauto.
  - simpl. lia.
Defined.

(** C3 (as stated) fails on a diamond: the node [c], which two paths reach
    from the target [t], is visited twice in one check. *)
Lemma checkForCycles_diamond_counterexample :
  checkForCycles_visits 6 (sample_node "t") (sample_node "s")
    diamond_nodes diamond_edges = Some (false, ["t"; "a"; "c"; "b"; "c"])
  ∧ visit_count "c" ["t"; "a"; "c"; "b"; "c"] = 2
  ∧ ¬ NoDup ["t"; "a"; "c"; "b"; "c"].
Proof.
  split; [reflexivity|]. split; [reflexivity|].
  intros H. apply NoDup_cons in H as [_ H]. apply NoDup_cons in H as [_ H].
  apply NoDup_cons in H as [H _]. apply H. apply list_elem_of_In. simpl. tauto.
Qed.

(** ** [updateNodeData] *)

Lemma merge_data_lookup node data k :
  node_data (merge_data node data) !! k
  = match data !! k with Some v => Some v | None => node_data node !! k end.
Proof.
  simpl. rewrite lookup_union.
  by destruct (data !! k), (node_data node !! k).
Qed.

Lemma updateNodeData_lookup id data st i node :
  nodes st !! i = Some node →
  nodes (updateNodeData id data st) !! i
  = Some (if bool_decide (node_id node = id) then merge_data node data else node).
Proof. intros Hi. simpl. by rewrite list_lookup_fmap, Hi. Qed.

(** C9: [updateNodeData id data] leaves the edges, the number of nodes and
    their order as they are; the node at each position keeps its id, type
    and position; a node with another id is unchanged; the data of a node
    with this id becomes the old data overridden key by key by the patch;
    and when no node has this id the node list is unchanged. *)
Theorem updateNodeData_frame id data st :
  edges (updateNodeData id data st) = edges st
  ∧ length (nodes (updateNodeData id data st)) = length (nodes st)
  ∧ (∀ i node, nodes st !! i = Some node →
       ∃ node', nodes (updateNodeData id data st) !! i = Some node'
         ∧ node_id node' = node_id node
         ∧ node_type node' = node_type node
         ∧ node_position node' = node_position node
         ∧ (node_id node ≠ id → node' = node)
         ∧ (node_id node = id →
              ∀ k, node_data node' !! k
                   = match data !! k with
                     | Some v => Some v
                     | None => node_data node !! k
                     end))
  ∧ ((∀ node, node ∈ nodes st → node_id node ≠ id) →
       nodes (updateNodeData id data st) = nodes st).
Proof.
  split; [done|]. split; [simpl; by rewrite length_fmap|]. split.
  - intros i node Hi. rewrite (updateNodeData_lookup _ _ _ _ _ Hi).
    destruct (decide (node_id node = id)) as [Heq|Hne].
    + rewrite bool_decide_eq_true_2 by done.
      exists (merge_data node data). repeat split; try done.
      intros _ k. apply merge_data_lookup.
    + rewrite bool_decide_eq_false_2 by done.
      exists node. repeat split; done.
  - intros Hnone. simpl. rewrite <- (list_fmap_id (nodes st)) at 2.
    apply list_fmap_ext. intros i node Hi. simpl.
    rewrite bool_decide_eq_false_2; [done|].
    apply Hnone. by eapply list_elem_of_lookup_2.
Qed.

Lemma updateNodeData_frame_witness :
  nodes (updateNodeData "n1" {[ "value" := VStr "new" ]} sample_store) !! 0
    = Some (mkNode "n1" "text_input" (0, 0)%Z
              {[ "label" := VStr "in"; "value" := VStr "new" ]})
  ∧ nodes (updateNodeData "n1" {[ "value" := VStr "new" ]} sample_store) !! 1
    = nodes sample_store !! 1
  ∧ nodes (updateNodeData "zz" {[ "value" := VStr "new" ]} sample_store)
    = nodes sample_store.
Proof.
  pose proof (updateNodeData_frame "zz" {[ "value" := VStr "new" ]} sample_store)
    as (_ & _ & _ & Hnone).
  split; [|split].
  - reflexivity.
  - reflexivity.
  - apply Hnone. intros node Hn. apply list_elem_of_In in Hn. simpl in Hn.
    destruct Hn as [<-|[<-|[]]]; simpl; discriminate.
Defined.

(** ** The Text Join node *)

(** C7: when the node's config holds a string under [separator], that string
    is the separator in use and the one the node shows first; in every other
    case it is a single space. *)
Theorem currentSeparator_default data :
  (∀ cfg s, data !! "config" = Some (VObj cfg) → cfg !! "separator" = Some (VStr s) →
     currentSeparator data = s ∧ localSeparator (TextJoinNode_mount data) = s)
  ∧ ((∀ cfg s, data !! "config" = Some (VObj cfg) → cfg !! "separator" ≠ Some (VStr s)) →
     currentSeparator data = " " ∧ localSeparator (TextJoinNode_mount data) = " ").
Proof.
  unfold TextJoinNode_mount, currentSeparator, get_field, opt_chain. simpl. split.
  - intros cfg s -> Hs. simpl. by rewrite Hs.
  - intros Hnone. destruct (data !! "config") as [[| | | | |cfg]|]; simpl; try done.
    destruct (cfg !! "separator") as [[| | | |s|]|] eqn:Hs; simpl; try done.
    by destruct (Hnone cfg s).
Qed.

Lemma currentSeparator_default_witness :
  currentSeparator comma_config = ", "
  ∧ currentSeparator numeric_config = " "
  ∧ currentSeparator ∅ = " ".
Proof.
  split; [|split].
  - apply (proj1 (currentSeparator_default comma_config) {[ "separator" := VStr ", " ]});
      reflexivity.
  - apply (proj2 (currentSeparator_default numeric_config)).
    intros cfg s Hcfg Hs. unfold numeric_config in Hcfg.
    rewrite lookup_singleton_eq in Hcfg. injection Hcfg as <-.
    rewrite lookup_singleton_eq in Hs. discriminate.
  - apply (proj2 (currentSeparator_default ∅)).
    intros cfg s Hcfg. rewrite lookup_empty in Hcfg. discriminate.
Defined.

(** After [applyValue id data value] the node [id] of the store carries the
    new separator, and so does the local state. *)
Lemma applyValue_separator id data value ui st i node :
  nodes st !! i = Some node → node_id node = id →
  ∃ node', nodes (applyValue id data value ui st).2 !! i = Some node'
           ∧ currentSeparator (node_data node') = value
           ∧ localSeparator (applyValue id data value ui st).1 = value.
Proof.
  intros Hi Hid. unfold applyValue. cbn [fst snd].
  rewrite (updateNodeData_lookup _ _ _ _ _ Hi), bool_decide_eq_true_2 by done.
  eexists. split; [done|]. split; [|done].
  unfold currentSeparator, get_field. rewrite merge_data_lookup.
  rewrite lookup_singleton_eq. simpl. by rewrite lookup_insert_eq.
Qed.

(** ** The sanitizer of the Text Input node *)

Lemma after_gt_length s r : after_gt s = Some r → String.length r < String.length s.
Proof.
  revert r. induction s as [|c s IH]; intros r; simpl; [done|].
  destruct (Ascii.eqb c ">").
  - intros [= ->]. lia.
  - intros H. apply IH in H. lia.
Qed.

Lemma after_gt_None s : after_gt s = None ↔ has_gt s = false.
Proof.
  induction s as [|c s IH]; simpl; [done|].
  destruct (Ascii.eqb c ">"); simpl; [split; discriminate|done].
Qed.

Lemma has_gt_append_r a b : has_gt b = true → has_gt (a +:+ b) = true.
Proof.
  intros Hb. induction a as [|c a IH]; simpl; [done|].
  rewrite IH. apply orb_true_r.
Qed.

Lemma has_gt_tag_free s : has_gt s = false → tag_free s = true.
Proof.
  induction s as [|c s IH]; simpl; [done|]. intros H.
  apply orb_false_iff in H as [_ H]. rewrite H. simpl.
  destruct (Ascii.eqb c "<"); [done|by apply IH].
Qed.

(** A string free of tags cannot be cut as [s1 < s2 > s3]. *)
Lemma tag_free_no_tag s :
  tag_free s = true → ∀ s1 s2 s3, s ≠ s1 +:+ "<" +:+ s2 +:+ ">" +:+ s3.
Proof.
  intros Hs s1 s2 s3.
  assert (has_gt (s2 +:+ ">" +:+ s3) = true) as Hgt by (by apply has_gt_append_r).
  revert s Hs. induction s1 as [|c s1 IH]; intros s Hs ->.
  - change (negb (has_gt (s2 +:+ ">" +:+ s3)) = true) in Hs.
    rewrite Hgt in Hs. discriminate.
  - change (tag_free (String c (s1 +:+ "<" +:+ s2 +:+ ">" +:+ s3)) = true) in Hs.
    cbn [tag_free] in Hs. destruct (Ascii.eqb c "<").
    + rewrite has_gt_append_r in Hs; [discriminate|].
      by apply (has_gt_append_r "<").
    + by eapply IH.
Qed.

(** The loop of [[^>]*] followed by [>]: it stops after the first [>]. *)
Lemma star_not_gt s : ∀ n prev,
  String.length s ≤ n →
  RegExp.star_loop (RegExp.rmatch false (RegExp.NotChar ">"))
    (fun p s' => RegExp.rmatch false (RegExp.Char ">") p s' RegExp.accept) n prev s
  = (fun r => (Some ">"%char, r)) <$> after_gt s.
Proof.
  induction s as [|c s IH]; intros n prev Hn.
  - by destruct n.
  - destruct n as [|n]; [simpl in Hn; lia|].
    cbn [RegExp.star_loop RegExp.rmatch after_gt].
    unfold RegExp.char_eq, RegExp.canonicalize. cbn [andb].
    rewrite (Ascii.eqb_sym ">" c). destruct (Ascii.eqb_spec c ">") as [->|Hne].
    + done.
    + replace (String.length s <? String.length (String c s)) with true
        by (symmetry; apply Nat.ltb_lt; simpl; lia).
      fold (RegExp.star_loop (RegExp.rmatch false (RegExp.NotChar ">"))
              (fun p s' => RegExp.rmatch false (RegExp.Char ">") p s' RegExp.accept)).
      rewrite IH by (simpl in Hn; lia).
      by destruct (after_gt s).
Qed.

(** Where the second pattern matches: at a [<] that has a [>] after it. *)
Lemma tag_pattern_match prev s :
  RegExp.rmatch false tag_pattern prev s RegExp.accept
  = match s with
    | String c s1 =>
        if Ascii.eqb c "<" then (fun r => (Some ">"%char, r)) <$> after_gt s1 else None
    | EmptyString => None
    end.
Proof.
  destruct s as [|c s1]; [done|].
  unfold tag_pattern. cbn [RegExp.rmatch].
  unfold RegExp.char_eq at 1. unfold RegExp.canonicalize. cbn [andb].
  rewrite (Ascii.eqb_sym "<" c). destruct (Ascii.eqb c "<"); [|done].
  by apply star_not_gt.
Qed.

Lemma replace_tags_no_gt fuel : ∀ prev s,
  has_gt s = false → RegExp.replace_loop false tag_pattern fuel prev s = s.
Proof.
  induction fuel as [|fuel IH]; intros prev s Hs; [done|].
  cbn [RegExp.replace_loop]. rewrite tag_pattern_match.
  destruct s as [|c s1]; [done|]. simpl in Hs.
  apply orb_false_iff in Hs as [_ Hs].
  rewrite (IH (Some c) s1 Hs).
  destruct (Ascii.eqb c "<"); [|done].
  by rewrite (proj2 (after_gt_None s1) Hs).
Qed.

(** Dropping every match of the second pattern leaves no tag. *)
Lemma replace_tags_tag_free fuel : ∀ prev s,
  String.length s < fuel →
  tag_free (RegExp.replace_loop false tag_pattern fuel prev s) = true.
Proof.
  induction fuel as [|fuel IH]; intros prev s Hlen; [lia|].
  cbn [RegExp.replace_loop]. rewrite tag_pattern_match.
  destruct s as [|c s1]; [done|]. simpl in Hlen.
  destruct (Ascii.eqb c "<") eqn:Hc.
  - destruct (after_gt s1) as [r|] eqn:Hgt; simpl.
    + pose proof (after_gt_length _ _ Hgt) as Hr.
      replace (String.length r <? S (String.length s1)) with true
        by (symmetry; apply Nat.ltb_lt; lia).
      apply IH. lia.
    + apply after_gt_None in Hgt.
      rewrite replace_tags_no_gt by done. simpl. by rewrite Hc, Hgt.
  - simpl. rewrite Hc. apply IH. lia.
Qed.

Lemma tag_free_test s : ∀ prev,
  tag_free s = true → RegExp.test false tag_pattern prev s = false.
Proof.
  induction s as [|c s IH]; intros prev Hs.
  - done.
  - cbn [RegExp.test]. rewrite tag_pattern_match. simpl in Hs.
    destruct (Ascii.eqb c "<").
    + apply negb_true_iff in Hs.
      rewrite (proj2 (after_gt_None s) Hs). simpl.
      apply IH. by apply has_gt_tag_free.
    + by apply IH.
Qed.

Lemma sanitize_tag_free input : tag_free (sanitize input) = true.
Proof. unfold sanitize, RegExp.replace_all. apply replace_tags_tag_free. lia. Qed.

Lemma js_gt_ge n m : js_gt n m = true → js_ge n m = true.
Proof.
  destruct m as [|m]; simpl; [done|].
  intros H. apply Z.ltb_lt in H. apply Z.leb_le. lia.
Qed.

(** What [ToNumber] reads in a text: blanks at the ends do not count, a
    sign is read, a text without digits is [NaN]; fractions, exponents,
    radix prefixes and infinities have no number in the model. *)
Example to_number_text :
  to_number (VStr "-1") = Some (Int (-1))
  ∧ to_number (VStr " 12 ") = Some (Int 12)
  ∧ to_number (VStr " ") = Some (Int 0)
  ∧ to_number (VStr "007") = Some (Int 7)
  ∧ to_number (VStr "abc") = Some NaN
  ∧ to_number (VStr "2.5") = None
  ∧ to_number (VStr "1e3") = None
  ∧ to_number (VStr "0x10") = None
  ∧ to_number (VStr "-Infinity") = None.
Proof. repeat split; reflexivity. Qed.

(** A negative limit given as a text: the message is shown and nothing is
    committed, whatever is typed. *)
Example handleChange_negative_limit :
  handleChange "n1" {[ "config" := VObj {[ "max_length" := VStr "-1" ]} ]}
    "hi" None sample_store
  = Some (Some (MaxLengthReached (VStr "-1")), sample_store).
Proof. reflexivity. Qed.

Example sanitize_script : sanitize "<script>alert(1)</script><b>hi</b>" = "hi".
Proof. reflexivity. Qed.

(** The script pattern ignores case, wants a word boundary after the name
    and stops at the first closing tag. *)
Example replace_script_case :
  RegExp.replace_all true script_pattern
    "x<SCRIPT src=a>alert(1)</Script>y<scripty>z</script>"
  = "xy<scripty>z</script>".
Proof. reflexivity. Qed.

Example replace_script_first_close :
  RegExp.replace_all true script_pattern "<script>a<b>c</script>d</script>"
  = "d</script>".
Proof. reflexivity. Qed.

(** A script block that only appears once an inner one is gone is not
    matched again by the first pattern; the second pattern takes its tags. *)
Example sanitize_nested :
  RegExp.replace_all true script_pattern "<scr<script>x</script>ipt>alert(1)</SCRIPT>"
  = "<script>alert(1)</SCRIPT>"
  ∧ sanitize "<scr<script>x</script>ipt>alert(1)</SCRIPT>" = "alert(1)".
Proof. split; reflexivity. Qed.

Example sanitize_plain : sanitize "3 < 4" = "3 < 4".
Proof. reflexivity. Qed.

Example sanitize_between : sanitize "a < b and c > d" = "a  d".
Proof. reflexivity. Qed.

(** ** The validator does not write *)

Lemma someM_pure {A : Type} (f : A → Effects.Eff bool) (g : A → option bool)
    (l : list A) (st : FlowState) :
  (∀ x, x ∈ l → f x st = (fun b => (b, st)) <$> g x) →
  Effects.someM f l st = (fun b => (b, st)) <$> some_opt g l.
Proof.
  induction l as [|x l IH]; intros Hfg; [done|].
  cbn [Effects.someM some_opt]. unfold mbind, Effects.Eff_bind.
  rewrite (Hfg x) by left. destruct (g x) as [[]|]; simpl; [done| |done].
  apply IH. intros y Hy. apply Hfg. by right.
Qed.

Lemma checkForCycles_pure fuel target source st :
  Effects.checkForCycles fuel target source st
  = (fun b => (b, st)) <$> checkForCycles fuel target source (nodes st) (edges st).
Proof.
  revert target. induction fuel as [|fuel IH]; intros target; [done|].
  cbn [Effects.checkForCycles checkForCycles].
  unfold mbind, Effects.Eff_bind, Effects.get_nodes, Effects.get_edges.
  destruct (existsb _ _); [done|].
  apply someM_pure. intros o _. apply IH.
Qed.

Lemma isValidConnection_pure_aux fuel c st :
  Effects.isValidConnection fuel c st
    = (fun b => (b, st)) <$> isValidConnection fuel c (nodes st) (edges st)
  ∧ (isValidConnection fuel c (nodes st) (edges st) ≠ Some true →
     Effects.connectOnCanvas fuel c st = Some (false, st))
  ∧ (isValidConnection fuel c (nodes st) (edges st) = Some true →
     Effects.connectOnCanvas fuel c st = Some (true, onConnect c st)).
Proof.
  assert (Effects.isValidConnection fuel c st
          = (fun b => (b, st)) <$> isValidConnection fuel c (nodes st) (edges st)) as Hv.
  { unfold Effects.isValidConnection, isValidConnection.
    destruct (bool_decide (conn_source c = conn_target c)); [done|].
    unfold mbind, Effects.Eff_bind, Effects.get_nodes, Effects.get_edges.
    destruct (existsb _ (edges st)); [done|].
    destruct (find _ (nodes st)) as [sourceNode|]; [|done].
    destruct (find _ (nodes st)) as [targetNode|]; [|done].
    rewrite checkForCycles_pure.
    by destruct (checkForCycles _ _ _ _ _) as [[]|]. }
  split; [done|].
  unfold Effects.connectOnCanvas. rewrite Hv. split.
  - intros Hno. by destruct (isValidConnection _ _ _ _) as [[]|].
  - intros ->. done.
Qed.


(** C8: run over the store, [checkForCycles] and [isValidConnection] return
    the answer that is a function of the connection, the node list and the
    edge list alone, and leave both lists as they were; on the canvas the
    edge list changes only when the accepted connection is committed by
    [onConnect]. *)
Theorem isValidConnection_pure fuel c target source st :
  Effects.checkForCycles fuel target source st
  = (fun b => (b, st)) <$> checkForCycles fuel target source (nodes st) (edges st)
  ∧ Effects.isValidConnection fuel c st
    = (fun b => (b, st)) <$> isValidConnection fuel c (nodes st) (edges st)
  ∧ (isValidConnection fuel c (nodes st) (edges st) ≠ Some true →
     Effects.connectOnCanvas fuel c st = Some (false, st))
  ∧ (isValidConnection fuel c (nodes st) (edges st) = Some true →
     Effects.connectOnCanvas fuel c st = Some (true, onConnect c st)).
Proof.
  split; [apply checkForCycles_pure|]. apply isValidConnection_pure_aux.
Qed.

Lemma isValidConnection_pure_witness :
  Effects.connectOnCanvas 4 (sample_conn "c" "a" "x") (mkFlowState chain_nodes chain_edges)
  = Some (false, mkFlowState chain_nodes chain_edges)
  ∧ Effects.connectOnCanvas 4 (sample_conn "a" "c" "x") (mkFlowState chain_nodes chain_edges)
    = Some (true, onConnect (sample_conn "a" "c" "x") (mkFlowState chain_nodes chain_edges)).
Proof.
  split.
  - apply (isValidConnection_pure 4 (sample_conn "c" "a" "x")
             (sample_node "a") (sample_node "c") (mkFlowState chain_nodes chain_edges)).
    discriminate.
  - apply (isValidConnection_pure 4 (sample_conn "a" "c" "x")
             (sample_node "a") (sample_node "c") (mkFlowState chain_nodes chain_edges)).
    reflexivity.
Defined.

Lemma connectOnCanvas_store fuel c st :
  snd <$> Effects.connectOnCanvas fuel c st = Some (connectOnCanvas fuel c st).
Proof.
  unfold connectOnCanvas.
  destruct (isValidConnection fuel c (nodes st) (edges st)) as [[]|] eqn:Hv.
  - by rewrite (proj2 (proj2 (isValidConnection_pure_aux fuel c st)) Hv).
  - rewrite (proj1 (proj2 (isValidConnection_pure_aux fuel c st))); [done|].
    by rewrite Hv.
  - rewrite (proj1 (proj2 (isValidConnection_pure_aux fuel c st))); [done|].
    by rewrite Hv.
Qed.

(** ** The Math Operation block *)

(** C6: a Math Operation block whose config selects [divide], run with an
    input [b] equal to zero, yields a [BlockExecutionError] and no value. *)
Theorem math_operation_divide_by_zero config a b :
  config !! "operation" = Some (VStr "divide") → (b == 0)%Q →
  math_operation_run config a b = mkBlockResult None (Some BlockExecutionError).
Proof.
  intros Hcfg Hb. unfold math_operation_run, select_operation. rewrite Hcfg.
  simpl. by rewrite (proj2 (Qeq_bool_iff b 0) Hb).
Qed.

Lemma math_operation_divide_by_zero_witness :
  math_operation_run {[ "operation" := VStr "divide" ]} (10 # 1) (0 # 7)
  = mkBlockResult None (Some BlockExecutionError).
Proof.
  apply math_operation_divide_by_zero; reflexivity.
Defined.

Example math_operation_add :
  math_operation_run {[ "operation" := VStr "add" ]} (10 # 1) (5 # 1)
  = mkBlockResult (Some (15 # 1)) None.
Proof. reflexivity. Qed.

(** * Further properties of the code *)

(** ** The reachability check on any graph *)

Lemma some_opt_false {A : Type} (f : A → option bool) (l : list A) :
  some_opt f l = Some false → ∀ x, x ∈ l → f x = Some false.
Proof.
  induction l as [|y l IH]; simpl; intros H x Hx; [inversion Hx|].
  destruct (f y) as [[]|] eqn:Hy; try done.
  apply elem_of_cons in Hx as [->|Hx]; [done|by apply IH].
Qed.

Lemma some_opt_true {A : Type} (f : A → option bool) (l : list A) :
  some_opt f l = Some true → ∃ x, x ∈ l ∧ f x = Some true.
Proof.
  induction l as [|y l IH]; simpl; intros H; [done|].
  destruct (f y) as [[]|] eqn:Hy; try done.
  - exists y. split; [left|done].
  - destruct (IH H) as (x & Hx & Hfx). exists x. split; [by right|done].
Qed.

Lemma some_opt_stuck {A : Type} (f : A → option bool) (l : list A) (x : A) :
  x ∈ l → f x = None → (∀ y, y ∈ l → f y ≠ Some true) → some_opt f l = None.
Proof.
  induction l as [|y l IH]; intros Hx Hfx Hall; [inversion Hx|]. simpl.
  destruct (f y) as [[]|] eqn:Hy; [|apply IH|done].
  - exfalso. apply (Hall y); [left|done].
  - apply elem_of_cons in Hx as [->|Hx]; [congruence|done].
  - done.
  - intros z Hz. apply Hall. by right.
Qed.

Lemma reachable_in_first_step nodes edges target b :
  reachable_in nodes edges (node_id target) b →
  ∃ o, o ∈ getOutgoers target nodes edges
       ∧ (node_id o = b ∨ reachable_in nodes edges (node_id o) b).
Proof.
  intros H. apply tc_nsteps in H as (n & Hn & H). destruct n as [|n]; [lia|].
  inversion H as [|? ? y ? Hstep Hrest]; subst.
  destruct (out_rel_getOutgoers _ _ _ _ Hstep) as (o & Ho & <-).
  exists o. split; [done|]. destruct n as [|n].
  - left. by inversion Hrest.
  - right. apply tc_nsteps. exists (S n). split; [lia|done].
Qed.

Lemma checkForCycles_answer fuel target source nodes edges b :
  checkForCycles fuel target source nodes edges = Some b →
  (b = true ↔ reachable_in nodes edges (node_id target) (node_id source)).
Proof.
  revert target b. induction fuel as [|fuel IH]; intros target b; [done|].
  simpl. destruct (existsb _ _) eqn:Hex.
  - intros [= <-]. split; [|done]. intros _.
    apply existsb_elem_of in Hex as (o & Ho & Hid).
    apply bool_decide_eq_true in Hid. rewrite <- Hid.
    apply tc_once. by apply getOutgoers_out_rel.
  - pose proof (proj1 (existsb_false_elem_of _ _) Hex) as Hno. intros Hsome.
    destruct b.
    + split; [|done]. intros _.
      apply some_opt_true in Hsome as (o & Ho & Hfo).
      eapply tc_l; [by apply getOutgoers_out_rel|]. by apply (IH o true).
    + split; [done|]. intros Hr. exfalso.
      apply reachable_in_first_step in Hr as (o & Ho & [Hid|Hr]).
      * specialize (Hno o Ho). apply bool_decide_eq_false in Hno. done.
      * pose proof (some_opt_false _ _ Hsome o Ho) as Hfo.
        apply (IH o false) in Hfo. apply Hfo in Hr. discriminate.
Qed.

(** X1: on any graph, acyclic or not, an answer of [checkForCycles] is
    right: whenever the call returns, it returns [true] exactly when the
    source is reachable from the target by existing edges that each arrive
    at a node of the node list. *)
Theorem checkForCycles_sound fuel target source nodes edges b :
  checkForCycles fuel target source nodes edges = Some b →
  (b = true ↔ reachable_in nodes edges (node_id target) (node_id source)).
Proof. apply checkForCycles_answer. Qed.

Lemma checkForCycles_sound_witness :
  true = true ↔ reachable_in cyclic_nodes cyclic_edges "a" "b".
Proof.
  apply (checkForCycles_sound 1 (sample_node "a") (sample_node "b")
           cyclic_nodes cyclic_edges true).
  reflexivity.
Defined.

(** X2: the check hangs on a cycle.  When some cycle can be reached from
    the target and the source cannot, the call does not return, whatever
    the recursion budget. *)
Theorem checkForCycles_diverges nodes edges source x :
  reachable_in nodes edges x x →
  ∀ fuel target,
    reachable_in nodes edges (node_id target) x →
    ¬ reachable_in nodes edges (node_id target) (node_id source) →
    checkForCycles fuel target source nodes edges = None.
Proof.
  intros Hcycle fuel. induction fuel as [|fuel IH]; intros target Hx Hns; [done|].
  simpl. destruct (existsb _ _) eqn:Hex.
  { exfalso. apply Hns. apply existsb_elem_of in Hex as (o & Ho & Hid).
    apply bool_decide_eq_true in Hid. rewrite <- Hid.
    apply tc_once. by apply getOutgoers_out_rel. }
  apply reachable_in_first_step in Hx as (o & Ho & Hox).
  assert (reachable_in nodes edges (node_id o) x) as Hox'.
  { destruct Hox as [->|Hox]; done. }
  apply (some_opt_stuck _ _ o Ho).
  - apply IH; [done|]. intros Hr. apply Hns.
    eapply tc_l; [by apply getOutgoers_out_rel|done].
  - intros y Hy Hfy. apply checkForCycles_answer in Hfy.
    apply Hns. eapply tc_l; [by apply getOutgoers_out_rel|]. by apply Hfy.
Qed.

Lemma cyclic_edges_cycle : reachable_in cyclic_nodes cyclic_edges "a" "a".
Proof.
  eapply tc_l; [|apply tc_once].
  - split.
    + exists (sample_edge "a" "b" "in"). split; [|done].
      apply list_elem_of_In. simpl. tauto.
    + apply list_elem_of_In. simpl. tauto.
  - split.
    + exists (sample_edge "b" "a" "in"). split; [|done].
      apply list_elem_of_In. simpl. tauto.
    + apply list_elem_of_In. simpl. tauto.
Qed.

Lemma checkForCycles_diverges_witness :
  checkForCycles 7 (sample_node "b") (sample_node "s") cyclic_nodes cyclic_edges = None.
Proof.
  apply (checkForCycles_diverges cyclic_nodes cyclic_edges (sample_node "s") "a").
  - exact cyclic_edges_cycle.
  - apply tc_once. split.
    + exists (sample_edge "b" "a" "in"). split; [|done].
      apply list_elem_of_In. simpl. tauto.
    + apply list_elem_of_In. simpl. tauto.
  - intros Hr. apply reachable_in_reachable in Hr.
    by apply cyclic_edges_miss_s in Hr.
Defined.

(** ** The validator on any graph *)

(** X3: the two cheap rejections need no search.  A connection from a node
    to itself, or to an input handle at which an edge already arrives, is
    rejected for every node list and edge list, cyclic ones included, and
    whatever the recursion budget. *)
Theorem isValidConnection_rejects_early fuel c nodes edges :
  conn_source c = conn_target c ∨ input_taken edges c →
  isValidConnection fuel c nodes edges = Some false.
Proof.
  intros H. unfold isValidConnection.
  destruct (bool_decide (conn_source c = conn_target c)) eqn:Hself; [done|].
  apply bool_decide_eq_false in Hself.
  destruct H as [H|H]; [done|].
  apply hasExistingInputConnection_spec in H. by rewrite H.
Qed.

Lemma isValidConnection_rejects_early_witness :
  isValidConnection 0 (sample_conn "s" "a" "in") cyclic_nodes cyclic_edges = Some false.
Proof.
  apply isValidConnection_rejects_early. right.
  exists (sample_edge "b" "a" "in"). split; [|done].
  apply list_elem_of_In. simpl. tauto.
Defined.

Lemma end_present_find nodes x :
  end_present nodes x →
  ∃ n, find (fun n => bool_decide (Some (node_id n) = x)) nodes = Some n
       ∧ n ∈ nodes ∧ Some (node_id n) = x.
Proof.
  intros Hp. destruct (find _ nodes) as [n|] eqn:Hf.
  - exists n. split; [done|]. by apply find_end_present.
  - by apply find_end_absent in Hf.
Qed.

Lemma present_end_present nodes s : present nodes s → end_present nodes (Some s).
Proof.
  intros Hp. apply list_elem_of_fmap in Hp as (n & -> & Hn). by exists n.
Qed.

Lemma handle_same_refl h : handle_same h h = true.
Proof. unfold handle_same. by rewrite bool_decide_eq_true_2. Qed.

(** On properly written handles [===] and reactflow's reading agree. *)
Lemma handle_same_proper h1 h2 :
  proper_handle h1 → proper_handle h2 → handle_same h1 h2 = true → h1 = h2.
Proof.
  intros [Hu1 He1] [Hu2 He2] H. unfold handle_same in H.
  apply orb_true_iff in H as [H|H]; [by apply bool_decide_eq_true in H|].
  apply andb_true_iff in H as [H1 H2].
  destruct h1 as [| |x1], h2 as [| |x2]; try done.
  - simpl in H2. apply String.eqb_eq in H2. by subst.
  - simpl in H1. apply String.eqb_eq in H1. by subst.
  - simpl in H1. apply String.eqb_eq in H1. by subst.
Qed.

Lemma single_writer_by_handle_snoc es e :
  single_writer_by_handle es →
  (∀ e', e' ∈ es →
     edge_target e' = edge_target e →
     handle_same (edge_targetHandle e') (edge_targetHandle e) = false
     ∧ handle_same (edge_targetHandle e) (edge_targetHandle e') = false) →
  single_writer_by_handle (es ++ [e]).
Proof.
  intros Hsw Hfresh i j e1 e2 Hi Hj Ht Hh.
  apply lookup_snoc_Some in Hi as [[Hi Hi']|[-> <-]];
    apply lookup_snoc_Some in Hj as [[Hj Hj']|[-> <-]].
  - by eapply Hsw.
  - exfalso. destruct (Hfresh e1) as [H _]; [by eapply list_elem_of_lookup_2|done|].
    congruence.
  - exfalso. destruct (Hfresh e2) as [_ H]; [by eapply list_elem_of_lookup_2|done|].
    congruence.
  - done.
Qed.

(** A stored edge whose target handle was left out, and a connection to the
    default handle of the same node. *)
Lemma undefined_handle_accepted :
  let ns := [sample_node "a"; sample_node "b"; sample_node "c"] in
  let es := [mkEdge "e1" "a" "c" HNull HUndefined] in
  let c := mkConnection (Some "b") (Some "c") None None in
  let e := mkEdge (getEdgeId "b" "c" HNull HNull) "b" "c" HNull HNull in
  valid_by_handle ns es
  ∧ isValidConnection (S (length ns)) c ns es = Some true
  ∧ addEdge c es = es ++ [e]
  ∧ ¬ valid_by_handle ns (es ++ [e]).
Proof.
  cbv zeta. split; [|split; [reflexivity|split; [reflexivity|]]].
  - split; [|split; [|split]].
    + intros e He. apply list_elem_of_singleton in He as ->.
      split; apply list_elem_of_In; simpl; tauto.
    + intros e He. by apply list_elem_of_singleton in He as ->.
    + intros i j e1 e2 Hi Hj _ _.
      apply list_lookup_singleton_Some in Hi as [-> _].
      by apply list_lookup_singleton_Some in Hj as [-> _].
    + intros x Hx.
      assert (∀ a b, tc (edge_rel [mkEdge "e1" "a" "c" HNull HUndefined]) a b →
                     a = "a" ∧ b = "c") as Hab.
      { intros a b H. induction H as [a b (e & He & <- & <-)|a b d (e & He & <- & <-) _ IH].
        - by apply list_elem_of_singleton in He as ->.
        - apply list_elem_of_singleton in He as ->. by destruct IH. }
      by destruct (Hab _ _ Hx) as [-> ?].
  - intros (_ & _ & Hsw & _). by specialize (Hsw 0 1 _ _ eq_refl eq_refl eq_refl eq_refl).
Qed.

(** X4: where the validator is exact for the structural invariants, and
    where it is not.  Here "one writer per input" reads handles as reactflow
    does: a missing handle, [null] and the empty id name the same input.
    On a graph that is valid in this sense and whose target handles are
    properly written ([null] or a non-empty id), a connection with both ends
    given and a properly written target handle is accepted if and only if
    the edge list with the new edge appended is valid again.  Without the
    condition on the handles the validator, which compares handles with
    [===], accepts a second writer: a connection to the default handle of a
    node whose stored edge left the handle out. *)
Theorem isValidConnection_exact :
  (∀ ns es c s t fuel,
     valid_by_handle ns es →
     (∀ e, e ∈ es → proper_handle (edge_targetHandle e)) →
     proper_handle (handle_of (conn_targetHandle c)) →
     length ns < fuel →
     conn_source c = Some s → conn_target c = Some t →
     (isValidConnection fuel c ns es = Some true
      ↔ valid_by_handle ns
          (es ++ [mkEdge (getEdgeId s t (handle_of (conn_sourceHandle c))
                                         (handle_of (conn_targetHandle c)))
                          s t (handle_of (conn_sourceHandle c))
                          (handle_of (conn_targetHandle c))])))
  ∧ (∃ ns es c e,
       valid_by_handle ns es
       ∧ isValidConnection (S (length ns)) c ns es = Some true
       ∧ addEdge c es = es ++ [e]
       ∧ ¬ valid_by_handle ns (es ++ [e])).
Proof.
  split; [|eexists _, _, _, _; exact undefined_handle_accepted].
  intros ns es c s t fuel (Hep & Hnl & Hsw & Hac) Hproper Hpc Hlen Hcs Hct.
  set (e := mkEdge _ _ _ _ _).
  assert (acyclic (out_rel ns es)) as Hac_in.
  { eapply acyclic_sub; [|exact Hac]. by intros a b [H _]. }
  split.
  - intros Hok. apply isValidConnection_accepts in Hok
      as (sn & tn & Hsn & Htn & Hcs' & Hct' & Hne & Hfree & Hchk).
    rewrite Hcs in Hcs'. rewrite Hct in Hct'. simplify_eq.
    assert (¬ reachable es (node_id tn) (node_id sn)) as Hunreach.
    { intros Hr. apply (reachable_in_closed ns) in Hr; [|done].
      apply (checkForCycles_answer _ _ _ _ _ _ Hchk) in Hr. discriminate. }
    split; [|split; [|split]].
    + intros e' He'. apply elem_of_app in He' as [He'|He']; [by apply Hep|].
      apply list_elem_of_singleton in He' as ->. simpl.
      split; apply list_elem_of_fmap; eauto.
    + intros e' He'. apply elem_of_app in He' as [He'|He']; [by apply Hnl|].
      by apply list_elem_of_singleton in He' as ->.
    + apply single_writer_by_handle_snoc; [done|]. intros e' He' Ht.
      assert (edge_targetHandle e' ≠ edge_targetHandle e) as Hdiff.
      { intros Hh. apply Hfree. exists e'. split; [done|].
        rewrite Hct. simpl in Ht, Hh. by rewrite Ht. }
      split.
      * destruct (handle_same _ _) eqn:Hsame; [|done].
        apply handle_same_proper in Hsame; [done|by apply Hproper|done].
      * destruct (handle_same _ _) eqn:Hsame; [|done].
        apply handle_same_proper in Hsame; [done|done|by apply Hproper].
    + eapply acyclic_sub; [intros a b Hab; apply edge_rel_snoc in Hab; exact Hab|].
      by apply acyclic_add_pair.
  - intros (Hep' & Hnl' & Hsw' & Hac').
    assert (e ∈ es ++ [e]) as Hin.
    { apply elem_of_app. right. by apply list_elem_of_singleton. }
    destruct (Hep' e Hin) as [Hps Hpt]. simpl in Hps, Hpt.
    destruct (end_present_find ns (Some s)) as (sn & Hfs & Hsn & Hsid);
      [by apply present_end_present|].
    destruct (end_present_find ns (Some t)) as (tn & Hft & Htn & Htid);
      [by apply present_end_present|].
    injection Hsid as Hsid. injection Htid as Htid.
    unfold isValidConnection. rewrite Hcs, Hct.
    rewrite bool_decide_eq_false_2.
    2: { intros [= Heq]. by apply (Hnl' e Hin). }
    destruct (existsb _ es) eqn:Htaken.
    { exfalso. rewrite <- Hct in Htaken.
      apply hasExistingInputConnection_spec in Htaken as (e' & He' & Ht' & Hh').
      apply list_elem_of_lookup in He' as (i & Hi).
      pose proof (lookup_lt_Some _ _ _ Hi) as Hlt.
      assert (i = length es) as ->; [|lia].
      apply (Hsw' i (length es) e' e).
      - by apply lookup_app_l_Some.
      - rewrite lookup_app_r by lia. by rewrite Nat.sub_diag.
      - rewrite Hct in Ht'. by injection Ht'.
      - simpl. rewrite Hh'. apply handle_same_refl. }
    rewrite Hfs, Hft.
    destruct (checkForCycles_acyclic ns es tn sn fuel Hac_in Htn Hlen) as (b & -> & Hiff).
    destruct b; [|done]. exfalso.
    assert (reachable_in ns es (node_id tn) (node_id sn)) as Hr by (by apply Hiff).
    apply reachable_in_reachable in Hr. apply (Hac' t). rewrite <- Htid at 1.
    eapply tc_r.
    + eapply tc_sub; [|exact Hr]. intros a b Hab. apply edge_rel_snoc. by left.
    + apply edge_rel_snoc. right. simpl. by rewrite Hsid.
Qed.

Lemma chain_valid_by_handle : valid_by_handle chain_nodes chain_edges.
Proof.
  split; [|split; [|split]].
  - intros e He. apply list_elem_of_In in He. simpl in He.
    destruct He as [<-|[<-|[]]]; split; apply list_elem_of_In; simpl; tauto.
  - intros e He. apply list_elem_of_In in He. simpl in He.
    destruct He as [<-|[<-|[]]]; discriminate.
  - intros i j e1 e2 Hi Hj Ht Hh.
    destruct i as [|[|i]], j as [|[|j]]; simpl in Hi, Hj; simplify_eq; done.
  - exact chain_edges_acyclic.
Qed.

Lemma isValidConnection_exact_witness :
  isValidConnection 4 (sample_conn "a" "c" "other") chain_nodes chain_edges = Some true
  ↔ valid_by_handle chain_nodes (chain_edges ++ [sample_edge "a" "c" "other"]).
Proof.
  apply (proj1 isValidConnection_exact chain_nodes chain_edges
           (sample_conn "a" "c" "other") "a" "c" 4).
  - exact chain_valid_by_handle.
  - intros e He. apply list_elem_of_In in He. simpl in He.
    destruct He as [<-|[<-|[]]]; split; discriminate.
  - split; discriminate.
  - simpl. lia.
  - reflexivity.
  - reflexivity.
Defined.

(** ** The store: committing edges *)

Lemma connectionExists_snoc es e : connectionExists e (es ++ [e]) = true.
Proof.
  unfold connectionExists. apply existsb_elem_of. exists e. split.
  - apply elem_of_app. right. by apply list_elem_of_singleton.
  - by rewrite !bool_decide_eq_true_2, !handle_same_refl.
Qed.

(** X5: [onConnect] only ever appends.  The nodes are untouched, the edges
    already stored stay where they are, and at most one edge is added: the
    one with the ends and handles of the connection, under the id that
    [getEdgeId] builds from them. *)
Theorem onConnect_appends c st :
  nodes (onConnect c st) = nodes st
  ∧ (edges (onConnect c st) = edges st
     ∨ ∃ s t, conn_source c = Some s ∧ conn_target c = Some t
         ∧ s ≠ "" ∧ t ≠ ""
         ∧ edges (onConnect c st)
           = edges st ++ [mkEdge (getEdgeId s t (handle_of (conn_sourceHandle c))
                                             (handle_of (conn_targetHandle c)))
                                  s t (handle_of (conn_sourceHandle c))
                                  (handle_of (conn_targetHandle c))]).
Proof.
  split; [done|]. simpl. unfold addEdge.
  destruct (conn_source c) as [s|]; [|by left].
  destruct (conn_target c) as [t|]; [|by left].
  destruct (String.eqb_spec s ""); [by left|].
  destruct (String.eqb_spec t ""); [by left|]. simpl.
  destruct (connectionExists _ _); [by left|].
  right. exists s, t. done.
Qed.

(** X6: committing the same connection twice is the same as committing it
    once. *)
Theorem onConnect_idempotent c st :
  onConnect c (onConnect c st) = onConnect c st.
Proof.
  unfold onConnect. simpl. f_equal. unfold addEdge.
  destruct (conn_source c) as [s|]; [|done].
  destruct (conn_target c) as [t|]; [|done].
  destruct (_ || _) eqn:Hempty; [done|].
  destruct (connectionExists _ (edges st)) eqn:Hex; cbv beta iota zeta.
  - by rewrite Hex.
  - by rewrite connectionExists_snoc.
Qed.

Lemma addEdge_has_edge c es s t :
  conn_source c = Some s → conn_target c = Some t → s ≠ "" → t ≠ "" →
  ∃ e, e ∈ addEdge c es ∧ edge_source e = s ∧ edge_target e = t
       ∧ handle_same (edge_targetHandle e) (handle_of (conn_targetHandle c)) = true.
Proof.
  intros Hs Ht Hse Hte. unfold addEdge. rewrite Hs, Ht.
  rewrite (proj2 (String.eqb_neq s "") Hse), (proj2 (String.eqb_neq t "") Hte). simpl.
  destruct (connectionExists _ es) eqn:Hex.
  - apply existsb_elem_of in Hex as (el & Hel & H).
    apply andb_true_iff in H as [H Hth]. apply andb_true_iff in H as [H _].
    apply andb_true_iff in H as [H1 H2].
    apply bool_decide_eq_true in H1, H2. simpl in *. eauto.
  - eexists. split; [apply elem_of_app; right; by apply list_elem_of_singleton|].
    simpl. by rewrite handle_same_refl.
Qed.

Lemma handle_same_id h s : s ≠ "" → handle_same h (HId s) = true → h = HId s.
Proof.
  unfold handle_same. intros Hs H. apply orb_true_iff in H as [H|H].
  - by apply bool_decide_eq_true in H.
  - apply andb_true_iff in H as [_ H]. simpl in H.
    apply String.eqb_eq in H. done.
Qed.

(** X7: what the tests assert after a connection holds of the store.  Once
    [onConnect] has run on a connection whose ends are given and not empty,
    [expectEdgeToExist] finds an edge from its source to its target; when
    its target handle is given and not empty, [isHandleConnected] holds of
    that handle. *)
Theorem onConnect_edge_exists c st s t :
  conn_source c = Some s → conn_target c = Some t → s ≠ "" → t ≠ "" →
  edgeExists s t (edges (onConnect c st)) = true
  ∧ ∀ h, conn_targetHandle c = Some h → h ≠ "" →
      isHandleConnected t h (edges (onConnect c st)) = true.
Proof.
  intros Hs Ht Hse Hte.
  destruct (addEdge_has_edge c (edges st) s t Hs Ht Hse Hte) as (e & He & Hes & Het & Hh).
  split.
  - apply existsb_elem_of. exists e. split; [done|].
    by rewrite !bool_decide_eq_true_2.
  - intros h Hth Hne. rewrite Hth in Hh. apply handle_same_id in Hh; [|done].
    apply existsb_elem_of. exists e. split; [done|].
    rewrite (bool_decide_eq_true_2 (edge_target e = t)) by done.
    rewrite (bool_decide_eq_true_2 (edge_targetHandle e = HId h)) by done.
    apply orb_true_r.
Qed.

Lemma onConnect_edge_exists_witness :
  edgeExists "a" "c" (edges (onConnect (sample_conn "a" "c" "x") sample_store)) = true
  ∧ ∀ h, conn_targetHandle (sample_conn "a" "c" "x") = Some h → h ≠ "" →
      isHandleConnected "c" h (edges (onConnect (sample_conn "a" "c" "x") sample_store))
      = true.
Proof.
  apply (onConnect_edge_exists (sample_conn "a" "c" "x") sample_store "a" "c");
    (reflexivity || discriminate).
Defined.

(** X8: a committed connection is not accepted a second time.  After
    [onConnect] has run on a connection with both ends and the target handle
    given and not empty, the validator rejects that connection on the new
    store, whatever the recursion budget. *)
Theorem onConnect_then_rejected fuel c st s t h :
  conn_source c = Some s → conn_target c = Some t → conn_targetHandle c = Some h →
  s ≠ "" → t ≠ "" → h ≠ "" →
  isValidConnection fuel c (nodes (onConnect c st)) (edges (onConnect c st)) = Some false.
Proof.
  intros Hs Ht Hth Hse Hte Hhe.
  destruct (addEdge_has_edge c (edges st) s t Hs Ht Hse Hte) as (e & He & Hes & Het & Hh).
  rewrite Hth in Hh. apply handle_same_id in Hh; [|done].
  unfold isValidConnection.
  destruct (bool_decide (conn_source c = conn_target c)); [done|].
  replace (existsb _ (edges (onConnect c st))) with true; [done|].
  symmetry. apply hasExistingInputConnection_spec.
  exists e. split; [done|]. rewrite Ht, Hth. simpl. by rewrite Het.
Qed.

Lemma onConnect_then_rejected_witness :
  isValidConnection 9 (sample_conn "a" "c" "x")
    (nodes (onConnect (sample_conn "a" "c" "x") (mkFlowState chain_nodes chain_edges)))
    (edges (onConnect (sample_conn "a" "c" "x") (mkFlowState chain_nodes chain_edges)))
  = Some false.
Proof.
  apply (onConnect_then_rejected 9 (sample_conn "a" "c" "x")
           (mkFlowState chain_nodes chain_edges) "a" "c" "x");
    (reflexivity || discriminate).
Defined.

(** ** The store: editing nodes *)

Lemma merge_data_empty node : merge_data node ∅ = node.
Proof. destruct node. unfold merge_data. simpl. f_equal. apply (left_id_L ∅ (∪)). Qed.

Lemma merge_data_twice node d1 d2 :
  merge_data (merge_data node d1) d2 = merge_data node (d2 ∪ d1).
Proof. unfold merge_data. simpl. f_equal. apply (assoc_L (∪)). Qed.

(** X9: patches compose.  An empty patch changes nothing, and two patches
    sent to the same node one after the other amount to one patch in which
    the keys of the later one win. *)
Theorem updateNodeData_patches id d1 d2 st :
  updateNodeData id ∅ st = st
  ∧ updateNodeData id d2 (updateNodeData id d1 st) = updateNodeData id (d2 ∪ d1) st.
Proof.
  destruct st as [ns es]. unfold updateNodeData. simpl. split; f_equal.
  - rewrite <- (list_fmap_id ns) at 2. apply list_fmap_ext. intros i node _. simpl.
    destruct (bool_decide _); [apply merge_data_empty|done].
  - rewrite <- list_fmap_compose. apply list_fmap_ext. intros i node _. simpl.
    destruct (bool_decide (node_id node = id)) eqn:Hid.
    + change (node_id (merge_data node d1)) with (node_id node). rewrite Hid.
      apply merge_data_twice.
    + by rewrite Hid.
Qed.

(** X10: patches to different nodes do not interfere: they can be applied
    in either order. *)
Theorem updateNodeData_commute id1 id2 d1 d2 st :
  id1 ≠ id2 →
  updateNodeData id1 d1 (updateNodeData id2 d2 st)
  = updateNodeData id2 d2 (updateNodeData id1 d1 st).
Proof.
  intros Hne. unfold updateNodeData. simpl. f_equal.
  rewrite <- !list_fmap_compose. apply list_fmap_ext. intros i node _. simpl.
  repeat (case_bool_decide; simpl in *); done || congruence.
Qed.

Lemma updateNodeData_commute_witness :
  updateNodeData "n1" {[ "value" := VStr "x" ]}
    (updateNodeData "n2" {[ "label" := VStr "y" ]} sample_store)
  = updateNodeData "n2" {[ "label" := VStr "y" ]}
      (updateNodeData "n1" {[ "value" := VStr "x" ]} sample_store).
Proof. apply updateNodeData_commute. discriminate. Defined.

(** ** Dropping a node on the canvas *)

(** X11: a drop adds at most one node and never disturbs the graph.  With
    no type in the drag or no canvas instance the store is unchanged;
    otherwise the nodes already there keep their places, the new node comes
    last with the drawn id, the dragged type and the status idle, the edges
    are untouched, a structurally valid graph stays so, and the node ids
    stay pairwise distinct when the drawn id is fresh. *)
Theorem onDrop_keeps_graph type instance client uuid st :
  (type = "" ∨ instance = None → onDrop type instance client uuid st = st)
  ∧ edges (onDrop type instance client uuid st) = edges st
  ∧ (type ≠ "" → ∀ screenToFlowPosition, instance = Some screenToFlowPosition →
       ∃ node, nodes (onDrop type instance client uuid st) = nodes st ++ [node]
               ∧ node_id node = uuid ∧ node_type node = type
               ∧ node_data node !! "status" = Some (VStr "idle"))
  ∧ (structurally_valid (nodes st) (edges st) →
     structurally_valid (nodes (onDrop type instance client uuid st))
                        (edges (onDrop type instance client uuid st)))
  ∧ (NoDup (node_id <$> nodes st) → uuid ∉ (node_id <$> nodes st) →
     NoDup (node_id <$> nodes (onDrop type instance client uuid st))).
Proof.
  unfold onDrop. destruct (String.eqb_spec type "") as [->|Hty].
  { split; [done|]. split; [done|]. split; [done|]. split; done. }
  destruct instance as [screenToFlowPosition|].
  2: { split; [done|]. split; [done|]. split; [done|]. split; done. }
  split; [intros [?|?]; done|]. split; [done|]. split; [|split].
  - intros _ f [= <-]. eexists. split; [done|]. by repeat split.
  - apply addNode_valid.
  - intros Hnd Hfresh. simpl. rewrite fmap_app. simpl.
    apply NoDup_app. split; [done|]. split.
    + intros x Hx Hx'. apply list_elem_of_singleton in Hx' as ->. done.
    + apply NoDup_singleton.
Qed.

Lemma onDrop_keeps_graph_witness :
  onDrop "" (Some id) (0, 0)%Z "u1" sample_store = sample_store
  ∧ NoDup (node_id <$> nodes (onDrop "text_input" (Some id) (100, 80)%Z "u1" sample_store)).
Proof.
  split.
  - apply (onDrop_keeps_graph "" (Some id) (0, 0)%Z "u1" sample_store). by left.
  - apply (onDrop_keeps_graph "text_input" (Some id) (100, 80)%Z "u1" sample_store).
    + simpl. repeat constructor; intros H; apply list_elem_of_In in H; simpl in H;
        intuition discriminate.
    + intros H. apply list_elem_of_In in H. simpl in H. intuition discriminate.
Defined.

(** ** Config edits of the logic nodes *)






(** ** The live preview *)

Lemma length_units s : length (units s) = String.length s.
Proof.
  unfold units. rewrite length_fmap.
  induction s as [|c s IH]; simpl; [done|]. by rewrite IH.
Qed.

Lemma length_formatSeparatorForPreview separator :
  length (formatSeparatorForPreview separator) = String.length separator `max` 1.
Proof.
  unfold formatSeparatorForPreview.
  destruct (String.eqb_spec separator (String (ascii_of_nat 10) EmptyString)) as [->|_];
    [done|].
  destruct (String.eqb_spec separator (String (ascii_of_nat 9) EmptyString)) as [->|_];
    [done|].
  destruct (String.eqb_spec separator "") as [->|Hne]; [done|].
  rewrite length_units. destruct separator; [done|]. simpl. lia.
Qed.

(** X14: the live preview always fits.  It has between 3 and 29 code
    units and starts with [A]; a separator of at most 26 characters is shown
    whole between [A] and [B], a longer one is cut after 28 units and ends
    with an ellipsis. *)
Theorem buildPreview_bounds separator :
  3 ≤ length (buildPreview separator) ≤ 29
  ∧ buildPreview separator !! 0 = Some 65%N
  ∧ (String.length separator ≤ 26 →
       buildPreview separator = [65%N] ++ formatSeparatorForPreview separator ++ [66%N])
  ∧ (26 < String.length separator →
       buildPreview separator
       = take 28 ([65%N] ++ units separator ++ [66%N]) ++ [8230%N]).
Proof.
  pose proof (length_formatSeparatorForPreview separator) as Hlen.
  unfold buildPreview, PREVIEW_MAX_LENGTH.
  set (sep := formatSeparatorForPreview separator) in *.
  assert (length ([65%N] ++ sep ++ [66%N]) = length sep + 2) as Hp.
  { rewrite !length_app. simpl. lia. }
  destruct (Nat.ltb_spec 28 (length ([65%N] ++ sep ++ [66%N]))) as [Hlong|Hshort].
  - split; [|split; [|split]].
    + rewrite length_app, length_take, Hp. rewrite Hp in Hlong.
      change (length [8230%N]) with 1. lia.
    + done.
    + intros Hle. lia.
    + intros _. do 3 f_equal. subst sep. unfold formatSeparatorForPreview.
      destruct (String.eqb_spec separator (String (ascii_of_nat 10) EmptyString))
        as [->|_]; [simpl in *; lia|].
      destruct (String.eqb_spec separator (String (ascii_of_nat 9) EmptyString))
        as [->|_]; [simpl in *; lia|].
      destruct (String.eqb_spec separator "") as [->|_]; [simpl in *; lia|]. done.
  - split; [|split; [|split]].
    + lia.
    + done.
    + done.
    + intros Hgt. lia.
Qed.

Lemma buildPreview_bounds_witness :
  buildPreview ", " = [65%N] ++ formatSeparatorForPreview ", " ++ [66%N].
Proof.
  apply (buildPreview_bounds ", "). simpl. lia.
Defined.

(** ** The Text Input node: the length limit *)

(** X15: the length limit of the Text Input node, for a numeric
    [max_length] other than zero.  The limit is compared with the length of
    the sanitized text: below the limit the text is stored and no message is
    shown; exactly at the limit it is stored and the message is shown; above
    it the store is left alone and the message is shown.  Without a
    [max_length] (or with a falsy one) the text is always stored. *)
Theorem handleChange_max_length id data input err st :
  (truthy (opt_chain (get_field data "config") "max_length") = false →
     handleChange id data input err st
     = Some (None, updateNodeData id {[ "value" := VStr (sanitize input) ]} st))
  ∧ ∀ n, opt_chain (get_field data "config") "max_length" = VNum n → n ≠ 0%Z →
      let len := Z.of_nat (String.length (sanitize input)) in
      ((len < n)%Z →
         handleChange id data input err st
         = Some (None, updateNodeData id {[ "value" := VStr (sanitize input) ]} st))
      ∧ (len = n →
         handleChange id data input err st
         = Some (Some (MaxLengthReached (VNum n)),
                 updateNodeData id {[ "value" := VStr (sanitize input) ]} st))
      ∧ ((n < len)%Z →
         handleChange id data input err st
         = Some (Some (MaxLengthReached (VNum n)), st)).
Proof.
  unfold handleChange. split.
  - intros ->. done.
  - intros n -> Hn. simpl.
    rewrite (proj2 (Z.eqb_neq n 0) Hn). simpl.
    split; [|split]; intros H.
    + by rewrite (proj2 (Z.leb_gt n _) H).
    + subst n. by rewrite Z.leb_refl, Z.ltb_irrefl.
    + rewrite (proj2 (Z.leb_le n _)) by lia. by rewrite (proj2 (Z.ltb_lt n _) H).
Qed.

Lemma handleChange_max_length_witness :
  handleChange "n1" {[ "config" := VObj {[ "max_length" := VNum 2 ]} ]}
    "<b>hi</b>" None sample_store
  = Some (Some (MaxLengthReached (VNum 2)),
          updateNodeData "n1" {[ "value" := VStr (sanitize "<b>hi</b>") ]} sample_store).
Proof.
  apply (handleChange_max_length "n1" {[ "config" := VObj {[ "max_length" := VNum 2 ]} ]}
           "<b>hi</b>" None sample_store); reflexivity || discriminate.
Defined.

(** ** The matcher only moves forward *)

Lemma is_suffix_refl s : is_suffix s s.
Proof. by exists "". Qed.

Lemma is_suffix_tail c s : is_suffix s (String c s).
Proof. by exists (String c ""). Qed.

Lemma append_cons x (a b : string) : String x a +:+ b = String x (a +:+ b).
Proof. reflexivity. Qed.

Lemma append_assoc (a b c : string) : (a +:+ b) +:+ c = a +:+ b +:+ c.
Proof. induction a as [|x a IH]; [done|]. by rewrite !append_cons, IH. Qed.

Lemma is_suffix_trans a b c : is_suffix a b → is_suffix b c → is_suffix a c.
Proof.
  intros [p ->] [q ->]. exists (q +:+ p). by rewrite append_assoc.
Qed.

Lemma length_append (a b : string) :
  String.length (a +:+ b) = String.length a + String.length b.
Proof. induction a as [|x a IH]; [done|]. rewrite append_cons. simpl. by rewrite IH. Qed.

Lemma is_suffix_length s' s : is_suffix s' s → String.length s' ≤ String.length s.
Proof. intros [p ->]. rewrite length_append. lia. Qed.

Lemma list_ascii_append (a b : string) :
  list_ascii_of_string (a +:+ b) = list_ascii_of_string a ++ list_ascii_of_string b.
Proof. induction a as [|x a IH]; [done|]. rewrite append_cons. simpl. by rewrite IH. Qed.

Lemma is_suffix_sublist s' s :
  is_suffix s' s → sublist (list_ascii_of_string s') (list_ascii_of_string s).
Proof. intros [p ->]. rewrite list_ascii_append. apply sublist_inserts_l. done. Qed.

Lemma star_loop_forward body k n : ∀ prev s res,
  (∀ prev s k' res, body prev s k' = Some res →
     ∃ p s', is_suffix s' s ∧ k' p s' = Some res) →
  RegExp.star_loop body k n prev s = Some res →
  ∃ p s', is_suffix s' s ∧ k p s' = Some res.
Proof.
  induction n as [|n IH]; intros prev s res Hbody; simpl.
  - intros H. exists prev, s. split; [apply is_suffix_refl|done].
  - destruct (body prev s _) as [r|] eqn:Hb.
    + intros [= ->]. apply Hbody in Hb as (p1 & s1 & Hs1 & Hk).
      destruct (String.length s1 <? String.length s); [|done].
      apply IH in Hk as (p2 & s2 & Hs2 & Hk); [|done].
      exists p2, s2. split; [by eapply is_suffix_trans|done].
    + intros H. exists prev, s. split; [apply is_suffix_refl|done].
Qed.

(** A successful match hands what follows it to the continuation: the
    matcher never looks back. *)
Lemma rmatch_forward ic r : ∀ prev s k res,
  RegExp.rmatch ic r prev s k = Some res →
  ∃ p s', is_suffix s' s ∧ k p s' = Some res.
Proof.
  induction r as [|c|c| |r1 IH1 r2 IH2|r IH|r IH]; intros prev s k res; simpl.
  - intros H. exists prev, s. split; [apply is_suffix_refl|done].
  - destruct s as [|d s]; [done|]. destruct (RegExp.char_eq ic c d); [|done].
    intros H. exists (Some d), s. split; [apply is_suffix_tail|done].
  - destruct s as [|d s]; [done|]. destruct (RegExp.char_eq ic c d); [done|].
    intros H. exists (Some d), s. split; [apply is_suffix_tail|done].
  - destruct (xorb _ _); [|done].
    intros H. exists prev, s. split; [apply is_suffix_refl|done].
  - intros H. apply IH1 in H as (p1 & s1 & Hs1 & H).
    apply IH2 in H as (p2 & s2 & Hs2 & H).
    exists p2, s2. split; [by eapply is_suffix_trans|done].
  - apply star_loop_forward. intros p s0 k' res'. apply IH.
  - destruct (RegExp.rmatch ic r prev s RegExp.accept); [done|].
    intros H. exists prev, s. split; [apply is_suffix_refl|done].
Qed.

Lemma rmatch_accept_suffix ic r prev s p s' :
  RegExp.rmatch ic r prev s RegExp.accept = Some (p, s') → is_suffix s' s.
Proof.
  intros H. apply rmatch_forward in H as (p1 & s1 & Hs1 & H).
  unfold RegExp.accept in H. by simplify_eq.
Qed.

Lemma replace_loop_sublist ic r fuel : ∀ prev s,
  sublist (list_ascii_of_string (RegExp.replace_loop ic r fuel prev s))
          (list_ascii_of_string s).
Proof.
  induction fuel as [|fuel IH]; intros prev s; [done|].
  cbn [RegExp.replace_loop].
  assert (sublist
            (list_ascii_of_string
               match s with
               | EmptyString => EmptyString
               | String c s1 => String c (RegExp.replace_loop ic r fuel (Some c) s1)
               end) (list_ascii_of_string s)) as Hkeep.
  { destruct s as [|c s1]; [done|]. simpl. apply sublist_skip, IH. }
  destruct (RegExp.rmatch ic r prev s RegExp.accept) as [[p s']|] eqn:Hm; [|done].
  destruct (String.length s' <? String.length s); [|done].
  etrans; [apply IH|]. apply is_suffix_sublist. by eapply rmatch_accept_suffix.
Qed.

Lemma length_list_ascii s : length (list_ascii_of_string s) = String.length s.
Proof. induction s as [|c s IH]; simpl; [done|]. by rewrite IH. Qed.

(** X16: the sanitizer only deletes.  The characters it stores are
    characters of the typed text, in the same order; in particular the
    stored text is never longer than the typed one. *)
Theorem sanitize_only_deletes input :
  sublist (list_ascii_of_string (sanitize input)) (list_ascii_of_string input)
  ∧ String.length (sanitize input) ≤ String.length input.
Proof.
  assert (sublist (list_ascii_of_string (sanitize input)) (list_ascii_of_string input))
    as Hsub.
  { unfold sanitize, RegExp.replace_all. etrans; apply replace_loop_sublist. }
  split; [done|]. apply sublist_length in Hsub. by rewrite !length_list_ascii in Hsub.
Qed.

(** ** What the sanitizer leaves alone *)

Lemma rmatch_seq ic r1 r2 prev s k :
  RegExp.rmatch ic (RegExp.Seq r1 r2) prev s k
  = RegExp.rmatch ic r1 prev s (fun p s' => RegExp.rmatch ic r2 p s' k).
Proof. reflexivity. Qed.

Lemma rmatch_char ic c prev s k :
  RegExp.rmatch ic (RegExp.Char c) prev s k
  = match s with
    | String d s' => if RegExp.char_eq ic c d then k (Some d) s' else None
    | EmptyString => None
    end.
Proof. reflexivity. Qed.

Lemma char_eq_lt d : RegExp.char_eq true "<" d = true → d = "<"%char.
Proof.
  destruct d as [[] [] [] [] [] [] [] []]; intros H; vm_compute in H;
    (reflexivity || discriminate H).
Qed.

Lemma char_eq_gt d : RegExp.char_eq true ">" d = true → d = ">"%char.
Proof.
  destruct d as [[] [] [] [] [] [] [] []]; intros H; vm_compute in H;
    (reflexivity || discriminate H).
Qed.

Lemma has_gt_suffix s' s : is_suffix s' s → has_gt s' = true → has_gt s = true.
Proof. intros [p ->]. apply has_gt_append_r. Qed.

Lemma has_gt_skip c s : has_gt s = true → has_gt (String c s) = true.
Proof. intros H. simpl. rewrite H. apply orb_true_r. Qed.

(** The closing tag of the first pattern ends with a [>]. *)
Lemma script_close_has_gt prev s res :
  RegExp.rmatch true (RegExp.literal "</script>") prev s RegExp.accept = Some res →
  has_gt s = true.
Proof.
  cbn [RegExp.literal]. intros H.
  do 8 (rewrite rmatch_seq, rmatch_char in H;
        destruct s as [|? s]; [done|];
        destruct (RegExp.char_eq true _ _); [|done];
        apply has_gt_skip).
  rewrite rmatch_seq, rmatch_char in H.
  destruct s as [|d s]; [done|].
  destruct (RegExp.char_eq true ">" d) eqn:Hd; [|done].
  apply char_eq_gt in Hd as ->. done.
Qed.

(** The first pattern only matches at a [<] that has a [>] after it. *)
Lemma script_pattern_needs_tag prev s res :
  RegExp.rmatch true script_pattern prev s RegExp.accept = Some res →
  tag_free s = false.
Proof.
  unfold script_pattern. intros H.
  rewrite rmatch_seq in H.
  change (RegExp.literal "<script")
    with (RegExp.Seq (RegExp.Char "<") (RegExp.literal "script")) in H.
  rewrite rmatch_seq, rmatch_char in H.
  destruct s as [|d s1]; [done|].
  destruct (RegExp.char_eq true "<" d) eqn:Hd; [|done].
  apply char_eq_lt in Hd as ->.
  apply rmatch_forward in H as (p2 & s2 & Hs2 & H). cbv beta in H.
  rewrite rmatch_seq in H. apply rmatch_forward in H as (p3 & s3 & Hs3 & H).
  cbv beta in H.
  rewrite rmatch_seq in H. apply rmatch_forward in H as (p4 & s4 & Hs4 & H).
  cbv beta in H.
  rewrite rmatch_seq in H. apply rmatch_forward in H as (p5 & s5 & Hs5 & H).
  cbv beta in H.
  apply script_close_has_gt in H.
  assert (has_gt s1 = true) as Hgt.
  { eapply has_gt_suffix; [|exact H].
    repeat (eapply is_suffix_trans; [eassumption|]). apply is_suffix_refl. }
  simpl. by rewrite Hgt.
Qed.

Lemma tag_free_tail c s : tag_free (String c s) = true → tag_free s = true.
Proof.
  simpl. destruct (Ascii.eqb c "<"); [|done].
  intros H. apply negb_true_iff in H. by apply has_gt_tag_free.
Qed.

Lemma replace_script_tag_free fuel : ∀ prev s,
  tag_free s = true → RegExp.replace_loop true script_pattern fuel prev s = s.
Proof.
  induction fuel as [|fuel IH]; intros prev s Hs; [done|].
  cbn [RegExp.replace_loop].
  destruct (RegExp.rmatch true script_pattern prev s RegExp.accept) as [[p s']|] eqn:Hm.
  { apply script_pattern_needs_tag in Hm. congruence. }
  destruct s as [|c s1]; [done|]. f_equal. apply IH. by eapply tag_free_tail.
Qed.

Lemma replace_tags_tag_free_id fuel : ∀ prev s,
  tag_free s = true → RegExp.replace_loop false tag_pattern fuel prev s = s.
Proof.
  induction fuel as [|fuel IH]; intros prev s Hs; [done|].
  cbn [RegExp.replace_loop]. rewrite tag_pattern_match.
  destruct s as [|c s1]; [done|].
  rewrite (IH (Some c) s1) by (by eapply tag_free_tail).
  simpl in Hs. destruct (Ascii.eqb c "<"); [|done].
  apply negb_true_iff in Hs. by rewrite (proj2 (after_gt_None s1) Hs).
Qed.

Lemma sanitize_tag_free_id input : tag_free input = true → sanitize input = input.
Proof.
  intros H. unfold sanitize, RegExp.replace_all.
  rewrite (replace_script_tag_free _ _ _ H). by apply replace_tags_tag_free_id.
Qed.

Lemma has_gt_split s : has_gt s = true → ∃ s2 s3, s = s2 +:+ ">" +:+ s3.
Proof.
  induction s as [|c s IH]; simpl; [done|].
  destruct (Ascii.eqb_spec c ">") as [->|_]; simpl.
  - intros _. by exists "", s.
  - intros H. destruct (IH H) as (s2 & s3 & ->). by exists (String c s2), s3.
Qed.

Lemma tag_free_false_split s :
  tag_free s = false → ∃ s1 s2 s3, s = s1 +:+ "<" +:+ s2 +:+ ">" +:+ s3.
Proof.
  induction s as [|c s IH]; simpl; [done|].
  destruct (Ascii.eqb_spec c "<") as [->|_].
  - intros H. apply negb_false_iff in H.
    destruct (has_gt_split s H) as (s2 & s3 & ->). by exists "", s2, s3.
  - intros H. destruct (IH H) as (s1 & s2 & s3 & ->). by exists (String c s1), s2, s3.
Qed.

(** X17: the sanitizer changes exactly the texts that hold a tag.  The
    stored text equals the typed one if and only if the typed text cannot be
    cut as [s1 < s2 > s3], that is, no [<] in it is followed by a [>]. *)
Theorem sanitize_unchanged_iff input :
  sanitize input = input
  ↔ ∀ s1 s2 s3, input ≠ s1 +:+ "<" +:+ s2 +:+ ">" +:+ s3.
Proof.
  split.
  - intros Heq. rewrite <- Heq. apply tag_free_no_tag, sanitize_tag_free.
  - intros Hno. apply sanitize_tag_free_id.
    destruct (tag_free input) eqn:Hfree; [done|].
    destruct (tag_free_false_split input Hfree) as (s1 & s2 & s3 & ->).
    by destruct (Hno s1 s2 s3).
Qed.

(** X18: sanitizing is idempotent: a text that went through the sanitizer
    goes through it again unchanged. *)
Theorem sanitize_idempotent input : sanitize (sanitize input) = sanitize input.
Proof. apply sanitize_tag_free_id, sanitize_tag_free. Qed.

(** ** The Text Output node *)




(** ** Where the script pattern matches *)

Lemma literal_match w : ∀ prev s k,
  RegExp.rmatch true (RegExp.literal w) prev s k
  = match ci_prefix w prev s with
    | Some (p, rest) => k p rest
    | None => None
    end.
Proof.
  induction w as [|c w IH]; intros prev s k; [done|].
  cbn [RegExp.literal ci_prefix]. rewrite rmatch_seq, rmatch_char.
  destruct s as [|d s]; [done|]. destruct (RegExp.char_eq true c d); [|done].
  apply IH.
Qed.

(** Only the rest counts: the character before the word is forgotten as
    soon as one character has been read. *)
Lemma ci_prefix_rest w : ∀ prev prev' s,
  snd <$> ci_prefix w prev s = snd <$> ci_prefix w prev' s.
Proof.
  induction w as [|c w IH]; intros prev prev' s; [done|]. simpl.
  destruct s as [|d s]; [done|]. by destruct (RegExp.char_eq true c d).
Qed.

Lemma ci_prefix_close_starts prev s :
  starts_lt s = false → ci_prefix "</script>" prev s = None.
Proof.
  destruct s as [|d s]; [done|]. simpl. intros Hd.
  destruct (RegExp.char_eq true "<" d) eqn:Hc; [|done].
  apply char_eq_lt in Hc as ->. done.
Qed.

Lemma ci_prefix_close_last prev s p rest :
  ci_prefix "</script>" prev s = Some (p, rest) → p = Some ">"%char.
Proof.
  simpl. intros H.
  do 8 (destruct s as [|? s]; [done|]; destruct (RegExp.char_eq true _ _); [|done]).
  destruct s as [|d s]; [done|].
  destruct (RegExp.char_eq true ">" d) eqn:Hd; [|done].
  apply char_eq_gt in Hd as ->. by injection H as <- _.
Qed.

Lemma script_close_match prev s :
  RegExp.rmatch true (RegExp.literal "</script>") prev s RegExp.accept
  = (fun r => (Some ">"%char, r)) <$> (snd <$> ci_prefix "</script>" None s).
Proof.
  rewrite literal_match. rewrite (ci_prefix_rest _ None prev).
  destruct (ci_prefix "</script>" prev s) as [[p rest]|] eqn:H; [|done].
  apply ci_prefix_close_last in H as ->. done.
Qed.

Lemma char_eq_not_lt c : RegExp.char_eq true "<" c = Ascii.eqb c "<".
Proof.
  destruct (RegExp.char_eq true "<" c) eqn:H.
  - apply char_eq_lt in H as ->. done.
  - destruct (Ascii.eqb_spec c "<") as [->|]; [|done]. discriminate H.
Qed.

Lemma after_close_skip prev s :
  after_close (skip_to_lt prev s).2 = after_close s.
Proof.
  revert prev. induction s as [|c s IH]; intros prev; [done|].
  cbn [skip_to_lt]. destruct (Ascii.eqb c "<") eqn:Hc; [done|].
  rewrite IH. cbn [after_close].
  by rewrite (ci_prefix_close_starts None (String c s)) by done.
Qed.

Lemma skip_to_lt_length prev s :
  String.length (skip_to_lt prev s).2 ≤ String.length s.
Proof.
  revert prev. induction s as [|c s IH]; intros prev; [done|].
  cbn [skip_to_lt]. destruct (Ascii.eqb c "<"); [done|].
  specialize (IH (Some c)). simpl. lia.
Qed.

Lemma skip_to_lt_starts prev s :
  (skip_to_lt prev s).2 = EmptyString ∨ starts_lt (skip_to_lt prev s).2 = true.
Proof.
  revert prev. induction s as [|c s IH]; intros prev; [by left|].
  cbn [skip_to_lt]. destruct (Ascii.eqb c "<") eqn:Hc; [by right|]. apply IH.
Qed.

(** The loop of [[^<]*] in front of something that needs a [<]: it runs up
    to the first [<] and never has a reason to give characters back. *)
Lemma star_not_lt (k : RegExp.Cont) s : ∀ n prev,
  (∀ p s', starts_lt s' = false → k p s' = None) →
  String.length s ≤ n →
  RegExp.star_loop (RegExp.rmatch true (RegExp.NotChar "<")) k n prev s
  = k (skip_to_lt prev s).1 (skip_to_lt prev s).2.
Proof.
  induction s as [|c s IH]; intros n prev Hk Hn.
  - by destruct n.
  - destruct n as [|n]; [simpl in Hn; lia|].
    cbn [RegExp.star_loop RegExp.rmatch skip_to_lt].
    rewrite char_eq_not_lt. destruct (Ascii.eqb c "<") eqn:Hc; [done|].
    replace (String.length s <? String.length (String c s)) with true
      by (symmetry; apply Nat.ltb_lt; simpl; lia).
    fold (RegExp.star_loop (RegExp.rmatch true (RegExp.NotChar "<")) k).
    rewrite IH by (done || simpl in Hn; lia).
    destruct (k _ _) eqn:Hres; [done|].
    apply Hk. simpl. done.
Qed.


(** The loop over the body of a script block: from a [<] on, it stops after
    the first closing tag. *)

Lemma star_loop_S body k n prev s :
  RegExp.star_loop body k (S n) prev s
  = match body prev s
            (fun p s' =>
               if String.length s' <? String.length s
               then RegExp.star_loop body k n p s' else None) with
    | Some r => Some r
    | None => k prev s
    end.
Proof. reflexivity. Qed.

Lemma rmatch_not_ahead ic r prev s k :
  RegExp.rmatch ic (RegExp.NotAhead r) prev s k
  = match RegExp.rmatch ic r prev s RegExp.accept with
    | Some _ => None
    | None => k prev s
    end.
Proof. reflexivity. Qed.

Lemma rmatch_star ic r prev s k :
  RegExp.rmatch ic (RegExp.Star r) prev s k
  = RegExp.star_loop (RegExp.rmatch ic r) k (String.length s) prev s.
Proof. reflexivity. Qed.

Lemma rmatch_word_boundary ic prev s k :
  RegExp.rmatch ic RegExp.WordBoundary prev s k
  = if xorb (RegExp.is_word prev) (RegExp.is_word (RegExp.first_char s))
    then k prev s else None.
Proof. reflexivity. Qed.

Lemma star_script_body n : ∀ prev s,
  String.length s ≤ n →
  RegExp.star_loop
    (RegExp.rmatch true
       (RegExp.Seq (RegExp.NotAhead (RegExp.literal "</script>"))
          (RegExp.Seq (RegExp.Char "<") (RegExp.Star (RegExp.NotChar "<")))))
    (fun p s' => RegExp.rmatch true (RegExp.literal "</script>") p s' RegExp.accept)
    n prev s
  = if starts_lt s then (fun r => (Some ">"%char, r)) <$> after_close s else None.
Proof.
  induction n as [|n IH]; intros prev s Hn.
  - destruct s; [|simpl in Hn; lia]. done.
  - rewrite star_loop_S, rmatch_seq, rmatch_not_ahead, !script_close_match.
    destruct (starts_lt s) eqn:Hs.
    2: { rewrite (ci_prefix_close_starts None s Hs).
         change (_ <$> (snd <$> None)) with (@None RegExp.Pos).
         rewrite rmatch_seq, rmatch_char.
         destruct s as [|c s]; [done|]. simpl in Hs.
         by rewrite char_eq_not_lt, Hs. }
    destruct s as [|c s]; [done|]. simpl in Hs.
    apply Ascii.eqb_eq in Hs as ->.
    cbn [after_close].
    destruct (ci_prefix "</script>" None (String "<" s)) as [[p rest]|] eqn:Hclose;
      [done|].
    change (_ <$> (snd <$> None)) with (@None RegExp.Pos).
    rewrite rmatch_seq, rmatch_char, char_eq_not_lt.
    change (Ascii.eqb "<" "<") with true. cbv iota.
    rewrite rmatch_star, star_not_lt; [| |done].
    2: { intros p s' Hs'.
         destruct (Nat.ltb_spec (String.length s') (String.length (String "<" s)));
           [|done].
         rewrite IH by (simpl in *; lia). by rewrite Hs'. }
    pose proof (skip_to_lt_length (Some "<"%char) s) as Hlen.
    pose proof (after_close_skip (Some "<"%char) s) as Hskip.
    pose proof (skip_to_lt_starts (Some "<"%char) s) as Hst.
    destruct (skip_to_lt (Some "<"%char) s) as [p2 s2]. simpl in Hlen, Hskip, Hst |- *.
    replace (String.length s2 <? S (String.length s)) with true
      by (symmetry; apply Nat.ltb_lt; lia).
    rewrite IH by (simpl in Hn; lia). rewrite <- Hskip.
    destruct (starts_lt s2) eqn:Hs2.
    + by destruct (after_close s2).
    + destruct Hst as [->|Hst]; [done|congruence].
Qed.

Lemma ci_prefix_script_word prev s p rest :
  ci_prefix "<script" prev s = Some (p, rest) → RegExp.is_word p = true.
Proof.
  simpl. intros H.
  do 6 (destruct s as [|? s]; [done|]; destruct (RegExp.char_eq true _ _); [|done]).
  destruct s as [|d s]; [done|].
  destruct (RegExp.char_eq true "t" d) eqn:Hd; [|done].
  injection H as <- _. revert Hd.
  destruct d as [[] [] [] [] [] [] [] []]; intros H; vm_compute in H;
    (reflexivity || discriminate H).
Qed.

Lemma script_pattern_block prev s :
  RegExp.rmatch true script_pattern prev s RegExp.accept
  = (fun r => (Some ">"%char, r)) <$> script_block s.
Proof.
  unfold script_pattern, script_block.
  rewrite rmatch_seq, literal_match.
  pose proof (ci_prefix_rest "<script" prev None s) as Hrest.
  destruct (ci_prefix "<script" prev s) as [[p rest]|] eqn:Hopen;
    destruct (ci_prefix "<script" None s) as [[p' rest']|];
    simpl in Hrest; try discriminate Hrest; [|done].
  injection Hrest as ->.
  apply ci_prefix_script_word in Hopen.
  rewrite rmatch_seq, rmatch_word_boundary, Hopen. simpl xorb.
  destruct (RegExp.is_word (RegExp.first_char rest')); [done|]. simpl negb. cbv iota.
  rewrite rmatch_seq, rmatch_star, star_not_lt; [| |done].
  2: { intros q s' Hs'. rewrite rmatch_seq, rmatch_star, star_script_body by done.
       by rewrite Hs'. }
  pose proof (after_close_skip p rest') as Hskip.
  pose proof (skip_to_lt_starts p rest') as Hst.
  destruct (skip_to_lt p rest') as [p2 s2]. simpl in Hskip, Hst. cbn [fst snd].
  rewrite rmatch_seq, rmatch_star, star_script_body by done. rewrite <- Hskip.
  destruct Hst as [-> | ->]; [done|]. by destruct (after_close s2).
Qed.


(** X20: where the first pattern of the sanitizer matches.  At a position
    of the text it matches exactly a script block: [<script] in any letter
    case, not followed by a letter, a digit or an underscore, then
    everything up to and including the first [</script>] in any letter case;
    there is no match when the closing tag is missing. *)
Theorem script_pattern_match prev s :
  RegExp.rmatch true script_pattern prev s RegExp.accept
  = (fun r => (Some ">"%char, r)) <$> script_block s.
Proof. apply script_pattern_block. Qed.

(** ** Dropping a script block *)

Lemma replace_loop_fuel ic r fuel : ∀ fuel' prev s,
  String.length s < fuel → String.length s < fuel' →
  RegExp.replace_loop ic r fuel prev s = RegExp.replace_loop ic r fuel' prev s.
Proof.
  induction fuel as [|fuel IH]; intros fuel' prev s Hf Hf'; [lia|].
  destruct fuel' as [|fuel']; [lia|]. cbn [RegExp.replace_loop].
  assert (match s with
          | EmptyString => EmptyString
          | String c s1 => String c (RegExp.replace_loop ic r fuel (Some c) s1)
          end
          = match s with
            | EmptyString => EmptyString
            | String c s1 => String c (RegExp.replace_loop ic r fuel' (Some c) s1)
            end) as Hkeep.
  { destruct s as [|c s1]; [done|]. f_equal. apply IH; simpl in *; lia. }
  destruct (RegExp.rmatch ic r prev s RegExp.accept) as [[p s']|]; [|done].
  destruct (Nat.ltb_spec (String.length s') (String.length s)); [|done].
  apply IH; lia.
Qed.

Lemma replace_script_prev fuel : ∀ prev prev' s,
  RegExp.replace_loop true script_pattern fuel prev s
  = RegExp.replace_loop true script_pattern fuel prev' s.
Proof.
  induction fuel as [|fuel IH]; intros prev prev' s; [done|].
  cbn [RegExp.replace_loop]. rewrite !script_pattern_block.
  destruct (script_block s) as [rest|]; simpl.
  - by destruct (String.length rest <? String.length s).
  - done.
Qed.

Lemma ci_prefix_length w : ∀ prev s p rest,
  ci_prefix w prev s = Some (p, rest) →
  String.length s = String.length w + String.length rest.
Proof.
  induction w as [|c w IH]; intros prev s p rest; simpl.
  - by intros [= _ ->].
  - destruct s as [|d s]; [done|]. destruct (RegExp.char_eq true c d); [|done].
    intros H. apply IH in H. simpl. lia.
Qed.

Lemma after_close_length s rest :
  after_close s = Some rest → String.length rest < String.length s.
Proof.
  induction s as [|c s IH]; cbn [after_close].
  - done.
  - destruct (ci_prefix "</script>" None (String c s)) as [[p r]|] eqn:H.
    + intros [= ->]. apply ci_prefix_length in H. simpl in H. simpl. lia.
    + intros H'. apply IH in H'. simpl. lia.
Qed.

Lemma script_block_length s rest :
  script_block s = Some rest → String.length rest < String.length s.
Proof.
  unfold script_block.
  destruct (ci_prefix "<script" None s) as [[p r]|] eqn:H; [|done].
  destruct (RegExp.is_word _); [done|]. intros H'.
  apply after_close_length in H'. apply ci_prefix_length in H. lia.
Qed.

Lemma script_block_starts s : starts_lt s = false → script_block s = None.
Proof.
  unfold script_block. destruct s as [|c s]; [done|]. simpl. intros Hc.
  by rewrite char_eq_not_lt, Hc.
Qed.

Lemma replace_script_after_text pre : ∀ fuel prev s rest,
  has_lt pre = false → script_block s = Some rest →
  String.length (pre +:+ s) < fuel →
  RegExp.replace_loop true script_pattern fuel prev (pre +:+ s)
  = pre +:+ RegExp.replace_loop true script_pattern
              (fuel - String.length pre - 1) (Some ">"%char) rest.
Proof.
  induction pre as [|c pre IH]; intros fuel prev s rest Hpre Hblock Hfuel.
  - destruct fuel as [|fuel]; [lia|]. change ("" +:+ s) with s in *.
    cbn [RegExp.replace_loop]. rewrite script_pattern_block, Hblock.
    pose proof (script_block_length _ _ Hblock) as Hlt. simpl.
    replace (String.length rest <? String.length s) with true
      by (symmetry; apply Nat.ltb_lt; lia).
    by rewrite Nat.sub_0_r.
  - destruct fuel as [|fuel]; [lia|]. rewrite !append_cons in *.
    simpl in Hpre. apply orb_false_iff in Hpre as [Hc Hpre].
    cbn [RegExp.replace_loop]. rewrite script_pattern_block.
    rewrite script_block_starts by done. simpl.
    f_equal. rewrite (IH fuel (Some c) s rest) by (done || simpl in Hfuel; lia).
    done.
Qed.

(** X21: a script block after plain text is dropped whole.  When the text
    in front holds no [<], the first pass of the sanitizer keeps that text,
    removes the block with its content, and carries on with what follows
    the block. *)
Theorem replace_script_block pre s rest :
  has_lt pre = false → script_block s = Some rest →
  RegExp.replace_all true script_pattern (pre +:+ s)
  = pre +:+ RegExp.replace_all true script_pattern rest.
Proof.
  intros Hpre Hblock. unfold RegExp.replace_all.
  rewrite (replace_script_after_text pre _ None s rest) by (done || lia).
  f_equal. rewrite (replace_script_prev _ _ None).
  pose proof (script_block_length _ _ Hblock) as Hlt.
  apply replace_loop_fuel; [|lia].
  rewrite length_append. lia.
Qed.

Lemma replace_script_block_witness :
  RegExp.replace_all true script_pattern
    ("Hello " +:+ "<SCRIPT src=x>alert(1)</script> world")
  = "Hello " +:+ RegExp.replace_all true script_pattern " world".
Proof. apply replace_script_block; reflexivity. Defined.

Lemma replace_script_text pre : ∀ fuel prev x,
  has_lt pre = false → String.length (pre +:+ x) < fuel →
  RegExp.replace_loop true script_pattern fuel prev (pre +:+ x)
  = pre +:+ RegExp.replace_loop true script_pattern
              (fuel - String.length pre) None x.
Proof.
  induction pre as [|c pre IH]; intros fuel prev x Hpre Hfuel.
  - change ("" +:+ x) with x. rewrite Nat.sub_0_r. apply replace_script_prev.
  - destruct fuel as [|fuel]; [lia|]. rewrite !append_cons in *.
    simpl in Hpre. apply orb_false_iff in Hpre as [Hc Hpre].
    cbn [RegExp.replace_loop]. rewrite script_pattern_block.
    rewrite script_block_starts by done. simpl.
    f_equal. apply IH; [done|]. simpl in Hfuel. lia.
Qed.

(** X22: a script block typed into plain text leaves no trace.  When the
    text in front holds no [<], the stored text is the same as if the block,
    tags and content, had not been typed at all. *)
Theorem sanitize_drops_script_block pre s rest :
  has_lt pre = false → script_block s = Some rest →
  sanitize (pre +:+ s) = sanitize (pre +:+ rest).
Proof.
  intros Hpre Hblock. unfold sanitize. f_equal.
  pose proof (script_block_length _ _ Hblock) as Hlt.
  unfold RegExp.replace_all.
  rewrite (replace_script_after_text pre _ None s rest) by (done || lia).
  rewrite (replace_script_text pre _ None rest) by (done || lia).
  f_equal. rewrite (replace_script_prev _ _ None).
  apply replace_loop_fuel; rewrite !length_append; lia.
Qed.

Lemma sanitize_drops_script_block_witness :
  sanitize ("Hello " +:+ "<SCRIPT src=x>alert(1)</script> world")
  = sanitize ("Hello " +:+ " world").
Proof. apply sanitize_drops_script_block; reflexivity. Defined.

(** ** The Text Input node: what a change event stores *)

Lemma replace_loop_drop_blocks ic r block :
  (∀ prev s, RegExp.rmatch ic r prev s RegExp.accept
             = (fun rest => (Some ">"%char, rest)) <$> block s) →
  (∀ s rest, block s = Some rest → String.length rest < String.length s) →
  ∀ fuel prev s, RegExp.replace_loop ic r fuel prev s = drop_blocks block fuel s.
Proof.
  intros Hmatch Hshorter. induction fuel as [|fuel IH]; intros prev s; [done|].
  cbn [RegExp.replace_loop drop_blocks]. rewrite Hmatch.
  destruct (block s) as [rest|] eqn:Hblock; simpl.
  - rewrite (proj2 (Nat.ltb_lt _ _) (Hshorter _ _ Hblock)). apply IH.
  - destruct s as [|c s1]; [done|]. f_equal. apply IH.
Qed.

Lemma tag_pattern_block prev s :
  RegExp.rmatch false tag_pattern prev s RegExp.accept
  = (fun rest => (Some ">"%char, rest)) <$> tag_block s.
Proof.
  rewrite tag_pattern_match. destruct s as [|c s1]; [done|]. simpl.
  by destruct (Ascii.eqb c "<").
Qed.

Lemma tag_block_length s rest :
  tag_block s = Some rest → String.length rest < String.length s.
Proof.
  destruct s as [|c s1]; [done|]. simpl. destruct (Ascii.eqb c "<"); [|done].
  intros H. apply after_gt_length in H. lia.
Qed.

Lemma replace_scripts_strip s :
  RegExp.replace_all true script_pattern s = strip_scripts s.
Proof.
  apply replace_loop_drop_blocks;
    [apply script_pattern_block|apply script_block_length].
Qed.

Lemma replace_tags_strip s :
  RegExp.replace_all false tag_pattern s = strip_tags s.
Proof.
  apply replace_loop_drop_blocks; [apply tag_pattern_block|apply tag_block_length].
Qed.

(** C10: what a change event of the Text Input node commits.  The text
    handed to [updateNodeData] is the typed text read twice from left to
    right: first every script block met is dropped ([<script], in any
    letter case and not followed by a word character, up to the first
    [</script>]), then every tag met in what is left (a [<] up to the first
    [>] after it).  The store is either left as it was (the sanitized text
    is longer than [max_length]) or updated with exactly that text under
    [value]; without a [max_length] it is always updated.  The committed
    text is made of characters of the typed text in their order, the tag
    pattern matches nowhere in it (no [<] is followed by a [>]), and for
    some inputs it differs from what was typed. *)
Theorem handleChange_commits_sanitized :
  (∀ input, sanitize input = strip_tags (strip_scripts input))
  ∧ (∀ id data input err st,
       let maxLength := opt_chain (get_field data "config") "max_length" in
       let len := Z.of_nat (String.length (sanitize input)) in
       let stored := updateNodeData id {[ "value" := VStr (sanitize input) ]} st in
       snd <$> handleChange id data input err st
       = if truthy maxLength
         then (fun limit => if js_gt len limit then st else stored)
                <$> to_number maxLength
         else Some stored)
  ∧ (∀ input,
       sublist (list_ascii_of_string (sanitize input)) (list_ascii_of_string input)
       ∧ RegExp.test false tag_pattern None (sanitize input) = false
       ∧ ∀ s1 s2 s3, sanitize input ≠ s1 +:+ "<" +:+ s2 +:+ ">" +:+ s3)
  ∧ (∃ input st,
       sanitize input ≠ input
       ∧ handleChange "n1" ∅ input None st
         = Some (None, updateNodeData "n1" {[ "value" := VStr (sanitize input) ]} st)).
Proof.
  split; [|split; [|split]].
  - intros input. unfold sanitize.
    by rewrite replace_scripts_strip, replace_tags_strip.
  - intros id data input err st. cbv zeta. unfold handleChange.
    destruct (truthy _); [|done].
    destruct (to_number _) as [limit|]; [|done]. simpl.
    destruct (js_gt _ limit) eqn:Hgt.
    + by rewrite (js_gt_ge _ _ Hgt).
    + by destruct (js_ge _ limit).
  - intros input. pose proof (sanitize_tag_free input) as Hfree. split; [|split].
    + unfold sanitize, RegExp.replace_all. etrans; apply replace_loop_sublist.
    + by apply tag_free_test.
    + by apply tag_free_no_tag.
  - exists "<b>hi</b>", sample_store. split; [|reflexivity].
    by replace (sanitize "<b>hi</b>") with "hi" by reflexivity.
Qed.
